(** * Verification of the Redis cache handler (cache-handler.cjs)

    The handler is the pluggable cache of the rendering framework: it keeps
    serialized entries in a Redis store under namespaced keys, maintains a
    reverse index from tags to keys, and degrades to "miss" when the store is
    unavailable.

    Layout of the development:
    - JavaScript values that reach the handler ([json], [object]);
    - the Redis server as the handler observes it (keys with expiry, the six
      commands the handler issues, MULTI/EXEC);
    - the handler state and a state-and-exception monad [M] for the bodies of
      the async methods;
    - [CacheHandler]: the methods of the class, one definition per method;
    - [Json]: a concrete codec, on which the examples run;
    - [SingleFlight]: the event-loop view of [ensureConnected];
    - the vocabulary of the statements and the states of the examples;
    - the properties. *)

From stdpp Require Import gmap strings list fin_maps.
From Stdlib Require Import ZArith Ascii String DecimalString.

Local Open Scope string_scope.
Local Open Scope Z_scope.
Local Set Warnings "-register-all".

(** ** JavaScript values *)

(** The payloads the host hands over are plain data.  A number is modelled
    when it is a whole number, by its value (timestamps in milliseconds,
    lifetimes in seconds); fractions, NaN and the infinities have no
    counterpart here, and no statement below speaks of them. *)
Inductive json : Type :=
| JNull
| JBool (b : bool)
| JNum (n : Z)
| JStr (s : string)
| JArr (items : list json)
| JObj (fields : list (string * json)).

(** An object is its own enumerable properties, in insertion order. *)
Definition object : Type := list (string * json).

(** [o.k]: [None] stands for [undefined]. *)
Fixpoint obj_get (o : object) (k : string) : option json :=
  match o with
  | [] => None
  | (k', v) :: rest => if String.eqb k' k then Some v else obj_get rest k
  end.

(** [{...o, k: v}]: an existing property keeps its position, a new one is
    appended. *)
Fixpoint obj_set (o : object) (k : string) (v : json) : object :=
  match o with
  | [] => [(k, v)]
  | (k', v') :: rest =>
      if String.eqb k' k then (k', v) :: rest else (k', v') :: obj_set rest k v
  end.

(** [typeof x === "number"] *)
Definition typeof_number (x : option json) : bool :=
  match x with
  | Some (JNum _) => true
  | _ => false
  end.

(** ** Module constants and tag builders *)

Definition DEFAULT_TTL : Z := 84600.
Definition CACHE_KEY_PREFIX : string := "basechat:".
Definition TAG_INDEX_PREFIX : string := "basechat:tags:".

Definition buildTenantUserTag (userId slug : string) : string :=
  "tenant:" +:+ slug +:+ ":user:" +:+ userId.

Definition buildTenantTag (slug : string) : string :=
  "tenant:" +:+ slug.

Definition buildTags (userId slug : string) : list string :=
  [buildTenantUserTag userId slug; buildTenantTag slug].

(** [ctx.tags] is one tag or an array of tags. *)
Inductive tags_arg : Type :=
| OneTag (tag : string)
| TagArray (tags : list string).

(** [Array.isArray(t) ? t : [t]] *)
Definition as_array (t : tags_arg) : list string :=
  match t with
  | OneTag tag => [tag]
  | TagArray tags => tags
  end.

Record context : Type := { ctx_tags : tags_arg }.

(** ** The Redis server *)

Inductive rvalue : Type :=
| RString (s : string)
| RSet (members : gset string).

(** A key holds a value and, unless persistent, the instant (in ms) at which
    it stops existing. *)
Record rentry : Type := { rval : rvalue; deadline : option Z }.

Inductive rerror : Type := WRONGTYPE | InvalidExpire.

Inductive reply : Type :=
| RNil
| ROk
| RBulk (s : string)
| RInt (n : Z)
| RArray (items : list string)
| RErr (e : rerror).

Inductive command : Type :=
| GET (k : string)
| SET_EX (k v : string) (seconds : Z)
| SADD (k member : string)
| SMEMBERS (k : string)
| EXPIRE (k : string) (seconds : Z)
| DEL (k : string).

(** The store keeps expiry instants as signed 64-bit milliseconds: a
    lifetime is accepted when it is positive and its instant fits.  A whole
    number too large for that reaches the store as text it does not read as
    an integer in range, and is refused all the same. *)
Definition LLONG_MAX : Z := 9223372036854775807.

Definition expire_ok (now seconds : Z) : bool :=
  (0 <? seconds) && (now + 1000 * seconds <=? LLONG_MAX).

Definition live (now : Z) (e : rentry) : bool :=
  match deadline e with
  | None => true
  | Some d => now <? d
  end.

(** Expired keys are invisible to every command. *)
Definition lookup_live (now : Z) (db : gmap string rentry) (k : string)
  : option rentry :=
  match db !! k with
  | Some e => if live now e then Some e else None
  | None => None
  end.

(** Modelled from the Redis command reference: the effect and the reply of
    the commands the handler sends. *)
Definition exec_command (now : Z) (c : command) (db : gmap string rentry)
  : reply * gmap string rentry :=
  match c with
  | GET k =>
      match lookup_live now db k with
      | None => (RNil, db)
      | Some e =>
          match rval e with
          | RString s => (RBulk s, db)
          | RSet _ => (RErr WRONGTYPE, db)
          end
      end
  | SET_EX k v seconds =>
      if negb (expire_ok now seconds) then (RErr InvalidExpire, db)
      else (ROk, <[k := {| rval := RString v;
                           deadline := Some (now + 1000 * seconds) |}]> db)
  | SADD k member =>
      match lookup_live now db k with
      | None =>
          (RInt 1, <[k := {| rval := RSet {[member]}; deadline := None |}]> db)
      | Some e =>
          match rval e with
          | RSet s =>
              (RInt (if decide (member ∈ s) then 0 else 1),
               <[k := {| rval := RSet ({[member]} ∪ s);
                         deadline := deadline e |}]> db)
          | RString _ => (RErr WRONGTYPE, db)
          end
      end
  | SMEMBERS k =>
      match lookup_live now db k with
      | None => (RArray [], db)
      | Some e =>
          match rval e with
          | RSet s => (RArray (elements s), db)
          | RString _ => (RErr WRONGTYPE, db)
          end
      end
  | EXPIRE k seconds =>
      match lookup_live now db k with
      | None => (RInt 0, db)
      | Some e =>
          if seconds <=? 0 then (RInt 1, delete k db)
          else if negb (expire_ok now seconds) then (RErr InvalidExpire, db)
          else (RInt 1, <[k := {| rval := rval e;
                                  deadline := Some (now + 1000 * seconds) |}]> db)
      end
  | DEL k =>
      (RInt (if lookup_live now db k is Some _ then 1 else 0), delete k db)
  end.

(** EXEC runs the queued commands in order; a command that replies with an
    error does not stop the ones after it. *)
Fixpoint exec_queue (now : Z) (queue : list command) (db : gmap string rentry)
  : list reply * gmap string rentry :=
  match queue with
  | [] => ([], db)
  | c :: rest =>
      let (r, db1) := exec_command now c db in
      let (rs, db2) := exec_queue now rest db1 in
      (r :: rs, db2)
  end.

Definition is_error (r : reply) : bool :=
  match r with
  | RErr _ => true
  | _ => false
  end.

(** ** Handler state, environment, and the monad of method bodies *)

Inductive exn : Type :=
| TransportError
| ErrorReply (e : rerror)
| MultiErrorReply
| ReconnectGaveUp
| SyntaxError
| TypeError.

Inductive completion (A : Type) : Type :=
| Normal (a : A)
| Throw (e : exn).
Arguments Normal {A} a.
Arguments Throw {A} e.

(** The three fields of the handler object, the store behind the client, and
    the environment: the clock, which commands and which socket attempts
    fail, and what has been observed so far. *)
Record state : Type := {
  redisClient : bool;
  isConnected : bool;
  connectionPromise : bool;
  store : gmap string rentry;
  now : Z;
  fails : nat → bool;
  unreachable : nat → bool;
  commandsIssued : nat;
  socketAttempts : nat;
  connectCalls : nat;
  console : list string;
}.

Definition set_isConnected (b : bool) (st : state) : state :=
  {| redisClient := redisClient st; isConnected := b;
     connectionPromise := connectionPromise st; store := store st;
     now := now st; fails := fails st; unreachable := unreachable st;
     commandsIssued := commandsIssued st; socketAttempts := socketAttempts st;
     connectCalls := connectCalls st; console := console st |}.

Definition set_connectionPromise (b : bool) (st : state) : state :=
  {| redisClient := redisClient st; isConnected := isConnected st;
     connectionPromise := b; store := store st;
     now := now st; fails := fails st; unreachable := unreachable st;
     commandsIssued := commandsIssued st; socketAttempts := socketAttempts st;
     connectCalls := connectCalls st; console := console st |}.

Definition set_store (db : gmap string rentry) (st : state) : state :=
  {| redisClient := redisClient st; isConnected := isConnected st;
     connectionPromise := connectionPromise st; store := db;
     now := now st; fails := fails st; unreachable := unreachable st;
     commandsIssued := commandsIssued st; socketAttempts := socketAttempts st;
     connectCalls := connectCalls st; console := console st |}.

Definition set_now (t : Z) (st : state) : state :=
  {| redisClient := redisClient st; isConnected := isConnected st;
     connectionPromise := connectionPromise st; store := store st;
     now := t; fails := fails st; unreachable := unreachable st;
     commandsIssued := commandsIssued st; socketAttempts := socketAttempts st;
     connectCalls := connectCalls st; console := console st |}.

Definition count_command (st : state) : state :=
  {| redisClient := redisClient st; isConnected := isConnected st;
     connectionPromise := connectionPromise st; store := store st;
     now := now st; fails := fails st; unreachable := unreachable st;
     commandsIssued := S (commandsIssued st);
     socketAttempts := socketAttempts st;
     connectCalls := connectCalls st; console := console st |}.

Definition count_socketAttempt (st : state) : state :=
  {| redisClient := redisClient st; isConnected := isConnected st;
     connectionPromise := connectionPromise st; store := store st;
     now := now st; fails := fails st; unreachable := unreachable st;
     commandsIssued := commandsIssued st;
     socketAttempts := S (socketAttempts st);
     connectCalls := connectCalls st; console := console st |}.

Definition count_connectCall (st : state) : state :=
  {| redisClient := redisClient st; isConnected := isConnected st;
     connectionPromise := connectionPromise st; store := store st;
     now := now st; fails := fails st; unreachable := unreachable st;
     commandsIssued := commandsIssued st; socketAttempts := socketAttempts st;
     connectCalls := S (connectCalls st); console := console st |}.

Definition log (line : string) (st : state) : state :=
  {| redisClient := redisClient st; isConnected := isConnected st;
     connectionPromise := connectionPromise st; store := store st;
     now := now st; fails := fails st; unreachable := unreachable st;
     commandsIssued := commandsIssued st; socketAttempts := socketAttempts st;
     connectCalls := connectCalls st; console := line :: console st |}.

(** Time passing between two calls of the host. *)
Definition elapse (ms : Z) (st : state) : state := set_now (now st + ms) st.

Definition M (A : Type) : Type := state → completion A * state.

Definition ret {A} (a : A) : M A := fun st => (Normal a, st).

Definition bind {A B} (m : M A) (k : A → M B) : M B :=
  fun st =>
    match m st with
    | (Normal a, st1) => k a st1
    | (Throw e, st1) => (Throw e, st1)
    end.

Definition throw {A} (e : exn) : M A := fun st => (Throw e, st).

(** [try { body } catch (error) { handler }] *)
Definition try_catch {A} (body : M A) (handler : exn → M A) : M A :=
  fun st =>
    match body st with
    | (Normal a, st1) => (Normal a, st1)
    | (Throw e, st1) => handler e st1
    end.

Definition lift {A} (c : completion A) : M A := fun st => (c, st).

Definition console_warn (line : string) : M unit :=
  fun st => (Normal tt, log line st).

Definition Date_now : M Z := fun st => (Normal (now st), st).

Declare Scope handler_scope.
Delimit Scope handler_scope with M.
Notation "x ← m ; k" := (bind m (fun x => k))
  (at level 20, m at level 100, k at level 200, only parsing) : handler_scope.
Notation "m ;; k" := (bind m (fun _ => k))
  (at level 100, k at level 200, only parsing, right associativity)
  : handler_scope.
Local Open Scope handler_scope.

(** ** The Redis client

    Every round trip to the server may fail in transit ([fails], indexed by
    the number of commands issued so far); an error reply is raised as an
    exception. *)

Definition issue (c : command) : M reply :=
  fun st =>
    let st1 := count_command st in
    if fails st (commandsIssued st) then (Throw TransportError, st1)
    else
      let (r, db) := exec_command (now st) c (store st) in
      match r with
      | RErr e => (Throw (ErrorReply e), set_store db st1)
      | _ => (Normal r, set_store db st1)
      end.

Definition client_get (k : string) : M (option string) :=
  r ← issue (GET k);
  ret (match r with RBulk s => Some s | _ => None end).

Definition client_set (k v : string) (seconds : Z) : M unit :=
  issue (SET_EX k v seconds);; ret tt.

Definition client_sMembers (k : string) : M (list string) :=
  r ← issue (SMEMBERS k);
  ret (match r with RArray l => l | _ => [] end).

(** [multi()...exec()]: one round trip; all queued commands are applied, and
    the call rejects when one of the replies is an error. *)
Definition multi_exec (queue : list command) : M (list reply) :=
  fun st =>
    let st1 := count_command st in
    if fails st (commandsIssued st) then (Throw TransportError, st1)
    else
      let (rs, db) := exec_queue (now st) queue (store st) in
      if existsb is_error rs then (Throw MultiErrorReply, set_store db st1)
      else (Normal rs, set_store db st1).

(** [client.quit()]: one round trip that changes nothing in the store. *)
Definition client_quit : M unit :=
  fun st =>
    let st1 := count_command st in
    if fails st (commandsIssued st) then (Throw TransportError, st1)
    else (Normal tt, st1).

(** The [reconnectStrategy] passed to [createClient]: [None] is [false]. *)
Definition reconnectStrategy (retries : Z) : option Z :=
  if 3 <? retries then None
  else Some (Z.min (retries * 100) 3000).

(** The listeners installed in the constructor. *)
Definition on_error (st : state) : state :=
  set_isConnected false (log "Redis client error:" st).

Definition on_connect (st : state) : state := set_isConnected true st.

Definition on_disconnect (st : state) : state :=
  set_isConnected false (log "Redis client disconnected" st).

(** The progress of [client.connect()] once it has been called on a client
    that is not open: socket attempts are repeated as the strategy says,
    waiting the delay it returns, until one succeeds or the strategy gives
    up.  After a failed attempt the client asks the strategy first and emits
    its error event next.  The strategy gives up at the fifth failure, so a
    fuel of five is never exhausted.  A client left open by a connection
    that dropped is outside this model. *)
Fixpoint connect_loop (fuel : nat) (retries : Z) (st : state)
  : completion unit * state :=
  match fuel with
  | O => (Throw ReconnectGaveUp, st)
  | S fuel' =>
      let st1 := count_socketAttempt st in
      if unreachable st (socketAttempts st) then
        match reconnectStrategy retries with
        | None =>
            (Throw ReconnectGaveUp,
             on_error
               (log "Redis reconnection attempts exceeded, disabling cache"
                  st1))
        | Some delay =>
            connect_loop fuel' (retries + 1) (elapse delay (on_error st1))
        end
      else (Normal tt, on_connect st1)
  end.

(** ** JSON *)

Class JsonCodec : Type := {
  JSON_stringify : json → completion string;
  JSON_parse : string → completion json;
}.

(** ** The handler class *)

Module CacheHandler.
Section Methods.
Context `{JsonCodec}.

(** [new CacheHandler()], with the environment the process starts in.
    [redisUrl] is [process.env.REDIS_URL]; [created] tells whether
    [createClient] returned a client rather than throwing. *)
Definition new_handler (redisUrl : option string) (created : bool)
    (db : gmap string rentry) (clock : Z) (fails unreachable : nat → bool)
  : state :=
  let configured :=
    match redisUrl with
    | None => false
    | Some url => negb (String.eqb url EmptyString)
    end in
  {| redisClient := configured && created;
     isConnected := false;
     connectionPromise := false;
     store := db; now := clock; fails := fails; unreachable := unreachable;
     commandsIssued := 0; socketAttempts := 0; connectCalls := 0;
     console :=
       if negb configured then
         ["REDIS_URL environment variable not set. Cache will be disabled."]
       else if negb created then ["Failed to create Redis client:"]
       else [] |}.

(** The synchronous prefix of [ensureConnected], up to the point where the
    caller holds a result or a promise to await. *)
Inductive entered : Type :=
| Immediate (connected : bool)
| Joined
| Started.

Definition ensureConnected_enter (st : state) : entered * state :=
  if negb (redisClient st) then (Immediate false, st)
  else if isConnected st then (Immediate true, st)
  else if connectionPromise st then (Joined, st)
  else (Started, set_connectionPromise true (count_connectCall st)).

(** The continuation after [await this.redisClient.connect()]: the [try],
    [catch] and [finally] blocks of the in-flight attempt. *)
Definition ensureConnected_settle (r : completion unit) (st : state)
  : bool * state :=
  match r with
  | Normal _ =>
      (true, set_connectionPromise false (set_isConnected true st))
  | Throw _ =>
      (false,
       set_connectionPromise false
         (set_isConnected false (log "Failed to connect to Redis:" st)))
  end.

(** A caller that runs alone: whoever awaits the promise sees the attempt in
    flight through to its end. *)
Definition ensureConnected : M bool :=
  fun st =>
    match ensureConnected_enter st with
    | (Immediate b, st1) => (Normal b, st1)
    | (_, st1) =>
        let (r, st2) := connect_loop 5 0 st1 in
        let (b, st3) := ensureConnected_settle r st2 in
        (Normal b, st3)
    end.

Definition getTagIndexKey (tag : string) : string :=
  TAG_INDEX_PREFIX +:+ tag.

(** [!data] for the reply of GET. *)
Definition falsy (data : option string) : bool :=
  match data with
  | None => true
  | Some s => String.eqb s EmptyString
  end.

(** [undefined] is [None]. *)
Definition get (key : string) : M (option json) :=
  let prefixedKey := CACHE_KEY_PREFIX +:+ key in
  try_catch
    (connected ← ensureConnected;
     if negb connected then
       console_warn "Redis unavailable in get()";; ret None
     else
       data ← client_get prefixedKey;
       if falsy data then ret None
       else
         v ← lift (JSON_parse (default EmptyString data));
         ret (Some v))
    (fun error => console_warn "Error getting cache key:";; ret None).

(** [typeof data.revalidate === "number" ? data.revalidate : DEFAULT_TTL] *)
Definition revalidate_of (data : object) : Z :=
  match obj_get data "revalidate" with
  | Some (JNum n) => n
  | _ => DEFAULT_TTL
  end.

Definition fixedData (data : object) : object :=
  obj_set data "revalidate" (JNum (revalidate_of data)).

Definition cacheEntry (data : object) (lastModified : Z) (tags : list string)
  : json :=
  JObj [("value", JObj (fixedData data));
        ("lastModified", JNum lastModified);
        ("tags", JArr (JStr <$> tags))].

(** The commands queued on [multi] by the loop over the tags. *)
Definition index_queue (prefixedKey : string) (seconds : Z)
    (tags : list string) : list command :=
  tags ≫= (fun tag =>
    [SADD (getTagIndexKey tag) prefixedKey;
     EXPIRE (getTagIndexKey tag) seconds]).

Definition set (key : string) (data : object) (ctx : context) : M unit :=
  let prefixedKey := CACHE_KEY_PREFIX +:+ key in
  let tags := as_array (ctx_tags ctx) in
  let revalidate := revalidate_of data in
  try_catch
    (connected ← ensureConnected;
     if negb connected then console_warn "Redis unavailable in set()"
     else
       lastModified ← Date_now;
       serialized ← lift (JSON_stringify (cacheEntry data lastModified tags));
       client_set prefixedKey serialized revalidate;;
       multi_exec (index_queue prefixedKey revalidate tags);;
       ret tt)
    (fun error => console_warn "Error setting cache key:").

(** [set] as the host calls it, [None] standing for [null] and
    [undefined]: [ctx.tags] and then [data.revalidate] are read before the
    [try], and reading a property of [null] throws. *)
Definition set_call (key : string) (data : option object)
    (ctx : option context) : M unit :=
  match ctx with
  | None => throw TypeError
  | Some ctx =>
      match data with
      | None => throw TypeError
      | Some data => set key data ctx
      end
  end.

(** The body of [for (const tag of tagArray)]. *)
Fixpoint revalidate_each (tagArray : list string) : M unit :=
  match tagArray with
  | [] => ret tt
  | tag :: rest =>
      let tagIndexKey := getTagIndexKey tag in
      cacheKeys ← client_sMembers tagIndexKey;
      match cacheKeys with
      | [] => revalidate_each rest
      | _ =>
          multi_exec ((DEL <$> cacheKeys) ++ [DEL tagIndexKey]);;
          revalidate_each rest
      end
  end.

Definition revalidateTag (tags : tags_arg) : M unit :=
  let tagArray := as_array tags in
  try_catch
    (connected ← ensureConnected;
     if negb connected then console_warn "Redis unavailable in revalidateTag()"
     else revalidate_each tagArray)
    (fun error => console_warn "Error revalidating tags:").

Definition resetRequestCache : M unit := ret tt.

Definition disconnect : M unit :=
  fun st =>
    if redisClient st && isConnected st then
      try_catch
        (client_quit;; fun st => (Normal tt, set_isConnected false st))
        (fun error => console_warn "Error disconnecting from Redis:") st
    else (Normal tt, st).

End Methods.
End CacheHandler.

(** ** A concrete JSON codec

    Modelled from the ECMAScript built-ins [JSON.stringify] and [JSON.parse],
    which the handler calls and the repository does not define: the compact
    text [JSON.stringify] produces for plain data, and a reader for JSON text
    whose numbers have neither fraction nor exponent and whose [\u] escapes
    stay below U+0080.  The handler itself is stated over any [JsonCodec];
    this instance is the one the examples run on. *)

Module Json.
Local Close Scope handler_scope.

Definition dquote : ascii := "034"%char.
Definition backslash : ascii := "\"%char.

Definition hex_digit (n : nat) : ascii :=
  ascii_of_nat (if (n <? 10)%nat then 48 + n else 87 + n).

Definition escape_char (c : ascii) : string :=
  let n := nat_of_ascii c in
  if Ascii.eqb c dquote then String backslash (String dquote EmptyString)
  else if Ascii.eqb c backslash then String backslash (String backslash EmptyString)
  else if (n =? 8)%nat then "\b"
  else if (n =? 9)%nat then "\t"
  else if (n =? 10)%nat then "\n"
  else if (n =? 12)%nat then "\f"
  else if (n =? 13)%nat then "\r"
  else if (n <? 32)%nat then
    "\u00" +:+ String (hex_digit (n / 16)) (String (hex_digit (n mod 16)) EmptyString)
  else String c EmptyString.

Fixpoint escape (s : string) : string :=
  match s with
  | EmptyString => EmptyString
  | String c rest => escape_char c +:+ escape rest
  end.

Definition quote (s : string) : string :=
  String dquote (escape s +:+ String dquote EmptyString).

Definition print_number (n : Z) : string :=
  DecimalString.NilZero.string_of_int (Z.to_int n).

Fixpoint join (parts : list string) : string :=
  match parts with
  | [] => EmptyString
  | [p] => p
  | p :: rest => p +:+ "," +:+ join rest
  end.

Fixpoint print (j : json) : string :=
  match j with
  | JNull => "null"
  | JBool true => "true"
  | JBool false => "false"
  | JNum n => print_number n
  | JStr s => quote s
  | JArr items => "[" +:+ join (map print items) +:+ "]"
  | JObj fields =>
      "{" +:+ join (map (fun kv => quote (fst kv) +:+ ":" +:+ print (snd kv)) fields)
          +:+ "}"
  end.

Definition is_ws (c : ascii) : bool :=
  let n := nat_of_ascii c in
  ((n =? 32) || (n =? 9) || (n =? 10) || (n =? 13))%nat.

Definition is_digit (c : ascii) : bool :=
  let n := nat_of_ascii c in ((48 <=? n) && (n <=? 57))%nat.

Definition digit_value (c : ascii) : Z := Z.of_nat (nat_of_ascii c) - 48.

Definition hex_value (c : ascii) : option nat :=
  let n := nat_of_ascii c in
  if ((48 <=? n) && (n <=? 57))%nat then Some (n - 48)%nat
  else if ((97 <=? n) && (n <=? 102))%nat then Some (n - 87)%nat
  else if ((65 <=? n) && (n <=? 70))%nat then Some (n - 55)%nat
  else None.

Fixpoint skip_ws (s : string) : string :=
  match s with
  | String c rest => if is_ws c then skip_ws rest else s
  | EmptyString => s
  end.

Fixpoint read_digits (s : string) (acc : Z) : Z * string :=
  match s with
  | String c rest =>
      if is_digit c then read_digits rest (10 * acc + digit_value c)
      else (acc, s)
  | EmptyString => (acc, s)
  end.

Definition ends_number (s : string) : bool :=
  match s with
  | String c _ =>
      negb (Ascii.eqb c "."%char || Ascii.eqb c "e"%char || Ascii.eqb c "E"%char)
  | EmptyString => true
  end.

Definition read_unsigned (s : string) : option (Z * string) :=
  match s with
  | String c rest =>
      if negb (is_digit c) then None
      else if Ascii.eqb c "0"%char then
        match rest with
        | String d _ => if is_digit d then None else Some (0, rest)
        | EmptyString => Some (0, rest)
        end
      else Some (read_digits s 0)
  | EmptyString => None
  end.

Definition read_number (s : string) : option (Z * string) :=
  match s with
  | String c rest =>
      r ← (if Ascii.eqb c "-"%char
           then '(n, rest') ← read_unsigned rest; Some (- n, rest')
           else read_unsigned s);
      if ends_number r.2 then Some r else None
  | EmptyString => None
  end.

Definition unescape (c : ascii) : option ascii :=
  if Ascii.eqb c dquote then Some dquote
  else if Ascii.eqb c backslash then Some backslash
  else if Ascii.eqb c "/"%char then Some "/"%char
  else if Ascii.eqb c "b"%char then Some (ascii_of_nat 8)
  else if Ascii.eqb c "t"%char then Some (ascii_of_nat 9)
  else if Ascii.eqb c "n"%char then Some (ascii_of_nat 10)
  else if Ascii.eqb c "f"%char then Some (ascii_of_nat 12)
  else if Ascii.eqb c "r"%char then Some (ascii_of_nat 13)
  else None.

Definition read_hex4 (a b c d : ascii) : option ascii :=
  a' ← hex_value a; b' ← hex_value b; c' ← hex_value c; d' ← hex_value d;
  let n := (((a' * 16 + b') * 16 + c') * 16 + d')%nat in
  if (n <? 128)%nat then Some (ascii_of_nat n) else None.

(** The characters after an opening quote, up to the closing one. *)
Fixpoint read_string (s : string) : option (string * string) :=
  match s with
  | EmptyString => None
  | String c rest =>
      if Ascii.eqb c dquote then Some (EmptyString, rest)
      else if Ascii.eqb c backslash then
        match rest with
        | String e rest1 =>
            if Ascii.eqb e "u"%char then
              match rest1 with
              | String h1 (String h2 (String h3 (String h4 rest2))) =>
                  x ← read_hex4 h1 h2 h3 h4;
                  '(body, after) ← read_string rest2;
                  Some (String x body, after)
              | _ => None
              end
            else
              x ← unescape e;
              '(body, after) ← read_string rest1;
              Some (String x body, after)
        | EmptyString => None
        end
      else if (nat_of_ascii c <? 32)%nat then None
      else
        '(body, after) ← read_string rest;
        Some (String c body, after)
  end.

Definition expect (word : string) (s : string) : option string :=
  if String.prefix word s
  then Some (String.substring (String.length word)
               (String.length s - String.length word) s)
  else None.

Fixpoint read_value (fuel : nat) (s : string) : option (json * string) :=
  match fuel with
  | O => None
  | S fuel' =>
      match skip_ws s with
      | EmptyString => None
      | String c rest as s' =>
          if Ascii.eqb c "n"%char then r ← expect "null" s'; Some (JNull, r)
          else if Ascii.eqb c "t"%char then r ← expect "true" s'; Some (JBool true, r)
          else if Ascii.eqb c "f"%char then r ← expect "false" s'; Some (JBool false, r)
          else if Ascii.eqb c dquote then
            '(str, r) ← read_string rest; Some (JStr str, r)
          else if Ascii.eqb c "["%char then
            match skip_ws rest with
            | String "]"%char r => Some (JArr [], r)
            | _ => '(items, r) ← read_elements fuel' rest; Some (JArr items, r)
            end
          else if Ascii.eqb c "{"%char then
            match skip_ws rest with
            | String "}"%char r => Some (JObj [], r)
            | _ => '(fields, r) ← read_members fuel' rest; Some (JObj fields, r)
            end
          else '(n, r) ← read_number s'; Some (JNum n, r)
      end
  end
with read_elements (fuel : nat) (s : string) : option (list json * string) :=
  match fuel with
  | O => None
  | S fuel' =>
      '(v, r) ← read_value fuel' s;
      match skip_ws r with
      | String c r' =>
          if Ascii.eqb c ","%char then
            '(vs, r'') ← read_elements fuel' r'; Some (v :: vs, r'')
          else if Ascii.eqb c "]"%char then Some ([v], r')
          else None
      | EmptyString => None
      end
  end
with read_members (fuel : nat) (s : string)
  : option (list (string * json) * string) :=
  match fuel with
  | O => None
  | S fuel' =>
      match skip_ws s with
      | String q r0 =>
          if negb (Ascii.eqb q dquote) then None
          else
            '(k, r1) ← read_string r0;
            match skip_ws r1 with
            | String colon r2 =>
                if negb (Ascii.eqb colon ":"%char) then None
                else
                  '(v, r3) ← read_value fuel' r2;
                  match skip_ws r3 with
                  | String c r4 =>
                      if Ascii.eqb c ","%char then
                        '(kvs, r5) ← read_members fuel' r4;
                        Some ((k, v) :: kvs, r5)
                      else if Ascii.eqb c "}"%char then Some ([(k, v)], r4)
                      else None
                  | EmptyString => None
                  end
            | EmptyString => None
            end
      | EmptyString => None
      end
  end.

Definition parse (text : string) : completion json :=
  match read_value (2 * String.length text + 2) text with
  | Some (v, rest) =>
      match skip_ws rest with
      | EmptyString => Normal v
      | _ => Throw SyntaxError
      end
  | None => Throw SyntaxError
  end.

#[export] Instance codec : JsonCodec :=
  {| JSON_stringify := fun j => Normal (print j); JSON_parse := parse |}.

End Json.

(** ** The event loop around [ensureConnected]

    JavaScript runs each synchronous stretch of code to its end before any
    other: a call of [ensureConnected] runs up to its first [await], the
    listeners run when the client emits an event, and the rest of the
    in-flight attempt runs when the promise of [connect()] settles, at which
    point every caller holding the shared promise is resumed with its
    value. *)

Module SingleFlight.
Import CacheHandler.

Inductive event : Type :=
| Call (caller : nat)
| SocketConnect
| SocketError
| SocketDisconnect
| Settle (r : completion unit).

Record sched : Type := {
  handler : state;
  awaiting : list nat;
  resolved : list (nat * bool);
}.

Definition step (ev : event) (s : sched) : sched :=
  match ev with
  | Call c =>
      match ensureConnected_enter (handler s) with
      | (Immediate b, st) =>
          {| handler := st; awaiting := awaiting s;
             resolved := (c, b) :: resolved s |}
      | (_, st) =>
          {| handler := st; awaiting := c :: awaiting s;
             resolved := resolved s |}
      end
  | SocketConnect =>
      {| handler := on_connect (handler s); awaiting := awaiting s;
         resolved := resolved s |}
  | SocketError =>
      {| handler := on_error (handler s); awaiting := awaiting s;
         resolved := resolved s |}
  | SocketDisconnect =>
      {| handler := on_disconnect (handler s); awaiting := awaiting s;
         resolved := resolved s |}
  | Settle r =>
      if connectionPromise (handler s) then
        let (b, st) := ensureConnected_settle r (handler s) in
        {| handler := st; awaiting := [];
           resolved := ((fun c => (c, b)) <$> awaiting s) ++ resolved s |}
      else s
  end.

Definition run (evs : list event) (s : sched) : sched :=
  foldl (fun s ev => step ev s) s evs.

Definition idle (st : state) : sched :=
  {| handler := st; awaiting := []; resolved := [] |}.

Definition succeeded (r : completion unit) : bool :=
  match r with
  | Normal _ => true
  | Throw _ => false
  end.

End SingleFlight.

(** ** Vocabulary of the properties *)

(** The store accepts [seconds] as a lifetime at instant [now]. *)
Definition accepted (now seconds : Z) : Prop :=
  0 < seconds ∧ now + 1000 * seconds ≤ LLONG_MAX.

(** The store is connected and the client handle exists. *)
Definition ready (st : state) : Prop :=
  redisClient st = true ∧ isConnected st = true.

(** No command fails in transit from now on. *)
Definition healthy (st : state) : Prop := ∀ n, fails st n = false.

(** What a connection attempt leaves alone: the store, the failure scripts,
    the client handle, the promise slot and the two command counters. *)
Definition same_world (st st' : state) : Prop :=
  store st' = store st ∧ fails st' = fails st ∧
  unreachable st' = unreachable st ∧ redisClient st' = redisClient st ∧
  connectionPromise st' = connectionPromise st ∧
  commandsIssued st' = commandsIssued st ∧
  connectCalls st' = connectCalls st.

(** The value a tag index holds once [member] has been added to what was
    there; a string in the way stays as it is. *)
Definition indexed (member : string) (old : option rentry) : rvalue :=
  match old with
  | Some e =>
      match rval e with
      | RSet s => RSet ({[member]} ∪ s)
      | RString v => RString v
      end
  | None => RSet {[member]}
  end.

(** Every key of the store carries an expiry. *)
Definition all_expiring (db : gmap string rentry) : Prop :=
  ∀ k e, db !! k = Some e → is_Some (deadline e).

(** The calls the host makes, and time passing between them. *)
Inductive call : Type :=
| CallGet (key : string)
| CallSet (key : string) (data : object) (ctx : context)
| CallRevalidateTag (tags : tags_arg)
| Wait (ms : Z).

Definition run_call `{JsonCodec} (c : call) (st : state) : state :=
  match c with
  | CallGet key => (CacheHandler.get key st).2
  | CallSet key data ctx => (CacheHandler.set key data ctx st).2
  | CallRevalidateTag tags => (CacheHandler.revalidateTag tags st).2
  | Wait ms => elapse ms st
  end.

Definition run_calls `{JsonCodec} (cs : list call) (st : state) : state :=
  foldl (fun st c => run_call c st) st cs.

(** The reading of the TTL rule in the specification: the entry's own value
    when it is a positive number, the default otherwise. *)
Definition spec_effective_ttl (data : object) : Z :=
  match obj_get data "revalidate" with
  | Some (JNum n) => if 0 <? n then n else DEFAULT_TTL
  | _ => DEFAULT_TTL
  end.

(** [j.k] for a parsed value. *)
Definition json_field (j : json) (k : string) : option json :=
  match j with
  | JObj fields => obj_get fields k
  | _ => None
  end.

(** A connected handler over a store, with no failure ahead. *)
Definition connected_handler (db : gmap string rentry) (clock : Z) : state :=
  set_isConnected true
    (CacheHandler.new_handler (Some "redis://cache:6379") true db clock
       (fun _ => false) (fun _ => false)).

(** An entry found in the store of [st'] was in the store of [st] or
    carries the expiry [set] gives at [st']. *)
Definition set_writes_only (data : object) (st st' : state) : Prop :=
  ∀ k e, store st' !! k = Some e →
    store st !! k = Some e ∨
    deadline e =
      Some (now st' + 1000 * CacheHandler.revalidate_of data).

(** A handler whose store never answers: every socket attempt fails. *)
Definition unreachable_handler : state :=
  CacheHandler.new_handler (Some "redis://cache:6379") true ∅ 0
    (fun _ => false) (fun _ => true).

(** No [Settle] in a trace: the attempt in flight has not finished. *)
Definition pending (ev : SingleFlight.event) : bool :=
  match ev with
  | SingleFlight.Settle _ => false
  | _ => true
  end.

(** The running example: a rendered page of tenant "acme". *)
Definition acme_page : object := [("value", JStr "<rendered/>")].
Definition acme_ctx : context := {| ctx_tags := OneTag "tenant:acme" |}.

(** The handler after the page has been cached. *)
Definition acme_cached : state :=
  (@CacheHandler.set Json.codec "page:/o/acme" acme_page acme_ctx
     (connected_handler ∅ 0)).2.

(** Two pages of the same tenant, one cached for an hour, one for a
    minute. *)
Definition hour_page : object :=
  [("value", JStr "<rendered/>"); ("revalidate", JNum 3600)].
Definition minute_page : object :=
  [("value", JStr "<faq/>"); ("revalidate", JNum 60)].

(** A connected handler whose next command fails in transit, over a store
    in which tag ["b"] indexes one cached entry. *)
Definition failing_once : state :=
  {| redisClient := true; isConnected := true; connectionPromise := false;
     store :=
       <["basechat:tags:b" :=
           {| rval := RSet {["basechat:k"]}; deadline := Some 60000 |}]>
         (<["basechat:k" :=
              {| rval := RString "{}"; deadline := Some 60000 |}]> ∅);
     now := 0;
     fails := fun n => Nat.eqb n 0; unreachable := fun _ => false;
     commandsIssued := 0; socketAttempts := 0; connectCalls := 0;
     console := [] |}.

(** Further states the properties are exercised on. *)

(** An entry tagged with two tags. *)
Definition two_tag_cached : state :=
  (@CacheHandler.set Json.codec "k1" acme_page
     {| ctx_tags := TagArray ["t1"; "t2"] |} (connected_handler ∅ 0)).2.

(** A store in which a key of the namespace holds text that is not JSON. *)
Definition garbled : state :=
  connected_handler
    (<["basechat:k" := {| rval := RString "<html>"; deadline := None |}]> ∅) 0.

(** A handler just constructed, the store reachable. *)
Definition fresh_handler : state :=
  CacheHandler.new_handler (Some "redis://cache:6379") true ∅ 0
    (fun _ => false) (fun _ => false).

(** A handler constructed without REDIS_URL. *)
Definition unconfigured_handler : state :=
  CacheHandler.new_handler None true ∅ 0 (fun _ => false) (fun _ => false).

(** * Properties *)

(** ** Objects *)

Lemma obj_get_set (o : object) (k : string) (v : json) :
  obj_get (obj_set o k v) k = Some v.
Proof.
  induction o as [|[k' v'] rest IH]; simpl.
  - by rewrite String.eqb_refl.
  - destruct (String.eqb k' k) eqn:E; simpl; rewrite E; [done | exact IH].
Qed.

Lemma obj_get_set_ne (o : object) (k k' : string) (v : json) :
  k ≠ k' → obj_get (obj_set o k v) k' = obj_get o k'.
Proof.
  intros Hne. induction o as [|[k0 v0] rest IH]; simpl.
  - destruct (String.eqb_spec k k'); [done | done].
  - destruct (String.eqb_spec k0 k) as [->|Hk]; simpl.
    + destruct (String.eqb_spec k k'); [done | done].
    + destruct (String.eqb_spec k0 k'); [done | exact IH].
Qed.

(** ** Frame properties of the connection code *)

Section Connection.

Lemma connect_loop_frame (fuel : nat) :
  ∀ retries st, same_world st (connect_loop fuel retries st).2.
Proof.
  induction fuel as [|fuel IH]; intros retries st; simpl.
  - by repeat split.
  - destruct (unreachable st (socketAttempts st)); [|by repeat split].
    destruct (reconnectStrategy retries) as [delay|]; [|by repeat split].
    destruct (IH (retries + 1) (elapse delay (on_error (count_socketAttempt st))))
      as (? & ? & ? & ? & ? & ? & ?).
    by repeat split.
Qed.

Lemma connect_loop_connected (fuel : nat) :
  ∀ retries st st',
    connect_loop fuel retries st = (Normal tt, st') → isConnected st' = true.
Proof.
  induction fuel as [|fuel IH]; intros retries st st'; simpl; [done|].
  destruct (unreachable st (socketAttempts st)).
  - destruct (reconnectStrategy retries); [apply IH | done].
  - by intros [= <-].
Qed.

(** The strategy stops the attempts before the fuel does. *)
Lemma connect_loop_fuel_gen (fuel : nat) :
  ∀ (k : nat) retries st,
    (1 ≤ fuel)%nat → 5 ≤ retries + Z.of_nat fuel →
    connect_loop (fuel + k) retries st = connect_loop fuel retries st.
Proof.
  induction fuel as [|fuel IH]; intros k retries st Hpos Hfuel; [lia|].
  cbn [connect_loop Nat.add].
  destruct (unreachable st (socketAttempts st)); [|done].
  unfold reconnectStrategy. destruct (Z.ltb_spec 3 retries); [done|].
  apply IH; lia.
Qed.

End Connection.

(** ** The monad and the connection check *)

Section Monad.
Context `{JsonCodec}.
Import CacheHandler.

Lemma ensureConnected_ready (st : state) :
  redisClient st = true → isConnected st = true →
  ensureConnected st = (Normal true, st).
Proof.
  intros Hc Hi. unfold ensureConnected, ensureConnected_enter.
  by rewrite Hc, Hi.
Qed.

Lemma await_attempt (st1 : state) :
  ∃ b st', (let (r, st2) := connect_loop 5 0 st1 in
            let (b, st3) := ensureConnected_settle r st2 in
            (Normal b, st3)) = (Normal b, st') ∧
    store st' = store st1 ∧ fails st' = fails st1 ∧
    commandsIssued st' = commandsIssued st1 ∧
    redisClient st' = redisClient st1.
Proof.
  pose proof (connect_loop_frame 5 0 st1) as (F1 & F2 & _ & F4 & _ & F6 & _).
  destruct (connect_loop 5 0 st1) as [r st2]; simpl in *.
  destruct r; simpl; eexists _, _; (split; [reflexivity|]); simpl;
    by rewrite ?F1, ?F2, ?F4, ?F6.
Qed.

(** [ensureConnected] resolves, whatever the network does, and leaves the
    store and the command script alone. *)
Lemma ensureConnected_total (st : state) :
  ∃ b st', ensureConnected st = (Normal b, st') ∧
    store st' = store st ∧ fails st' = fails st ∧
    commandsIssued st' = commandsIssued st ∧
    redisClient st' = redisClient st.
Proof.
  unfold ensureConnected, ensureConnected_enter.
  destruct (redisClient st) eqn:Hc; cbn [negb]; [|by eexists _, _].
  destruct (isConnected st) eqn:Hi; [by eexists _, _|].
  destruct (connectionPromise st).
  - destruct (await_attempt st) as (b & st' & E & F); rewrite E.
    rewrite Hc in F. eexists _, _; split; [reflexivity | exact F].
  - destruct (await_attempt (set_connectionPromise true (count_connectCall st)))
      as (b & st' & E & F); rewrite E.
    simpl in F. rewrite Hc in F.
    eexists _, _; split; [reflexivity | exact F].
Qed.

Lemma try_catch_normal {A} (body : M A) (handler : exn → M A) (st : state) :
  (∀ e st1, ∃ a st2, handler e st1 = (Normal a, st2)) →
  ∃ a st', try_catch body handler st = (Normal a, st').
Proof.
  intros Hh. unfold try_catch.
  destruct (body st) as [[a|e] st1]; [by eexists _, _ | apply Hh].
Qed.

Lemma bind_normal {A B} (m : M A) (k : A → M B) (st st1 : state) (a : A) :
  m st = (Normal a, st1) → bind m k st = k a st1.
Proof. unfold bind. by intros ->. Qed.

Lemma bind_throw {A B} (m : M A) (k : A → M B) (st st1 : state) (e : exn) :
  m st = (Throw e, st1) → bind m k st = (Throw e, st1).
Proof. unfold bind. by intros ->. Qed.

Lemma bind_inv {A B} (m : M A) (k : A → M B) (st st' : state)
    (r : completion B) :
  bind m k st = (r, st') →
  (∃ a st1, m st = (Normal a, st1) ∧ k a st1 = (r, st')) ∨
  (∃ e, m st = (Throw e, st') ∧ r = Throw e).
Proof.
  unfold bind. destruct (m st) as [[a|e] st1]; intros E.
  - left. by exists a, st1.
  - right. exists e. by injection E as <- <-.
Qed.

Lemma try_catch_inv {A} (body : M A) (handler : exn → M A) (st st' : state)
    (r : completion A) :
  try_catch body handler st = (r, st') →
  (∃ a, body st = (Normal a, st') ∧ r = Normal a) ∨
  (∃ e st1, body st = (Throw e, st1) ∧ handler e st1 = (r, st')).
Proof.
  unfold try_catch. destruct (body st) as [[a|e] st1]; intros E.
  - left. exists a. by injection E as <- <-.
  - right. by exists e, st1.
Qed.

End Monad.

(** ** The methods never reject *)

Section Resolves.
Context `{JsonCodec}.
Import CacheHandler.

Lemma unit_normal (m : M unit) (st : state) :
  (∃ a st', m st = (Normal a, st')) → ∃ st', m st = (Normal tt, st').
Proof. intros ([] & st' & E). by exists st'. Qed.

Local Ltac absent := eexists _, _; split; [reflexivity | by left].

(** On a string key and on objects for [data] and [ctx], [get], [set] and
    [revalidateTag] resolve for every script of store failures and every
    behaviour of the JSON codec; a value comes out of [get] only when the
    connection, the read and the parse all succeeded, every failure gives
    [undefined]. *)
Theorem methods_never_reject (st : state) :
  (∀ key, ∃ r st', get key st = (Normal r, st') ∧
     (r = None ∨
      ∃ st1 text v, r = Some v ∧
        ensureConnected st = (Normal true, st1) ∧
        client_get (CACHE_KEY_PREFIX +:+ key) st1 = (Normal (Some text), st') ∧
        JSON_parse text = Normal v)) ∧
  (∀ key data ctx, ∃ st', set key data ctx st = (Normal tt, st')) ∧
  (∀ tags, ∃ st', revalidateTag tags st = (Normal tt, st')).
Proof.
  split; [|split].
  - intros key. unfold get, try_catch, bind.
    destruct (ensureConnected_total st) as (b & st1 & E & _). rewrite E.
    destruct b; cbn [negb]; [|absent].
    destruct (client_get (CACHE_KEY_PREFIX +:+ key) st1) as [[data|e] st2] eqn:Eg;
      [|absent].
    destruct data as [text|]; cbn [falsy default from_option id];
      [|absent].
    destruct (String.eqb text EmptyString); [absent|].
    unfold lift, ret.
    destruct (JSON_parse text) as [v|e] eqn:Ep; [|absent].
    eexists _, _; split; [reflexivity|]. right. by exists st1, text, v.
  - intros key data ctx. apply unit_normal, try_catch_normal.
    intros e st1. by eexists _, _.
  - intros tags. apply unit_normal, try_catch_normal.
    intros e st1. by eexists _, _.
Qed.

(** C3, evaluated: [set] reads [ctx.tags] and [data.revalidate] before
    its [try]; with a [null] (or [undefined]) [data] or [ctx] the read
    throws, nothing catches it, and the call rejects, in every state and
    before anything is logged, connected or sent.  With objects the call is
    the guarded body. *)
Theorem set_rejects_null (key : string) (st : state) :
  (∀ ctx, set_call key None (Some ctx) st = (Throw TypeError, st)) ∧
  (∀ data, set_call key data None st = (Throw TypeError, st)) ∧
  (∀ data ctx, set_call key (Some data) (Some ctx) st = set key data ctx st).
Proof. by repeat split. Qed.

End Resolves.

(** ** The store under the commands of [set] *)

Section IndexQueue.
Import CacheHandler.
Variables (now : Z) (member : string) (seconds : Z).
Hypothesis seconds_ok : accepted now seconds.

Lemma expire_ok_accepted : expire_ok now seconds = true.
Proof.
  destruct seconds_ok as [Hpos Hmax]. unfold expire_ok.
  apply andb_true_iff. split; [by apply Z.ltb_lt | by apply Z.leb_le].
Qed.

Lemma live_stamp (v : rvalue) :
  live now {| rval := v; deadline := Some (now + 1000 * seconds) |} = true.
Proof.
  destruct seconds_ok as [Hpos _]. unfold live; simpl. apply Z.ltb_lt. lia.
Qed.

Lemma lookup_live_ne (db : gmap string rentry) (k k' : string) (e : rentry) :
  k ≠ k' → lookup_live now (<[k := e]> db) k' = lookup_live now db k'.
Proof. intros Hne. unfold lookup_live. by rewrite lookup_insert_ne. Qed.

(** SADD then EXPIRE on one index key. *)
Lemma index_pair (db : gmap string rentry) (k : string) :
  (exec_queue now [SADD k member; EXPIRE k seconds] db).2 =
  <[k := {| rval := indexed member (lookup_live now db k);
            deadline := Some (now + 1000 * seconds) |}]> db.
Proof.
  assert (Hs : (seconds <=? 0) = false)
    by (destruct seconds_ok; apply Z.leb_gt; lia).
  pose proof expire_ok_accepted as Hok.
  cbn [exec_queue exec_command]. unfold indexed.
  destruct (lookup_live now db k) as [e|] eqn:El.
  - destruct (rval e) as [v|s] eqn:Er; cbn [exec_command]; cbn [fst snd].
    + rewrite El, Hs, Hok. cbn [negb snd]. by rewrite Er.
    + unfold lookup_live. rewrite lookup_insert_eq.
      assert (Hl : live now {| rval := RSet ({[member]} ∪ s); deadline := deadline e |} = true).
      { unfold lookup_live in El. destruct (db !! k) as [e'|]; [|done].
        destruct (live now e') eqn:E'; [|done]. by injection El as ->. }
      rewrite Hl, Hs, Hok. cbn [negb snd rval]. by rewrite insert_insert_eq.
  - cbn [fst snd]. unfold lookup_live. rewrite lookup_insert_eq.
    cbn [live deadline]. rewrite Hs, Hok. cbn [negb snd rval].
    by rewrite insert_insert_eq.
Qed.

Lemma exec_queue_app (q1 q2 : list command) (db : gmap string rentry) :
  (exec_queue now (q1 ++ q2) db).2 =
  (exec_queue now q2 (exec_queue now q1 db).2).2.
Proof.
  revert db. induction q1 as [|c q1 IH]; intros db; [done|].
  simpl. destruct (exec_command now c db) as [r db1].
  specialize (IH db1).
  destruct (exec_queue now (q1 ++ q2) db1), (exec_queue now q1 db1). exact IH.
Qed.

Lemma indexed_twice (old : option rentry) :
  indexed member
    (Some {| rval := indexed member old; deadline := Some (now + 1000 * seconds) |}) =
  indexed member old.
Proof.
  unfold indexed; simpl. destruct old as [e|]; [destruct (rval e)|]; simpl;
    [done | |]; by rewrite ?(assoc_L (∪)), union_idemp_L.
Qed.

(** The whole queue of [set]: every index key named by a tag ends with the
    member added and the new expiry, every other key is untouched. *)
Lemma index_queue_lookup (tags : list string) :
  ∀ (db : gmap string rentry) (k : string),
    (exec_queue now (index_queue member seconds tags) db).2 !! k =
    if decide (k ∈ getTagIndexKey <$> tags)
    then Some {| rval := indexed member (lookup_live now db k);
                 deadline := Some (now + 1000 * seconds) |}
    else db !! k.
Proof.
  induction tags as [|t tags IH]; intros db k; [done|].
  change (index_queue member seconds (t :: tags))
    with ([SADD (getTagIndexKey t) member; EXPIRE (getTagIndexKey t) seconds]
            ++ index_queue member seconds tags)%list.
  rewrite exec_queue_app, index_pair, IH. rewrite fmap_cons.
  destruct (decide (k = getTagIndexKey t)) as [->|Hne].
  - destruct (decide (getTagIndexKey t ∈ getTagIndexKey t :: (getTagIndexKey <$> tags)))
      as [_|Hn]; [|exfalso; apply Hn; left].
    case_decide.
    + unfold lookup_live at 1. rewrite lookup_insert_eq, live_stamp.
      by rewrite indexed_twice.
    + by rewrite lookup_insert_eq.
  - rewrite lookup_live_ne, lookup_insert_ne by done.
    destruct (decide (k ∈ getTagIndexKey <$> tags)) as [Hin|Hin];
      destruct (decide (k ∈ getTagIndexKey t :: (getTagIndexKey <$> tags)))
        as [Hin'|Hin']; try done.
    + exfalso. apply Hin'. by right.
    + exfalso. apply elem_of_cons in Hin' as [?|?]; done.
Qed.

End IndexQueue.

(** ** [set] and [get] on a connected handler *)

Section SetGet.
Context `{JsonCodec}.
Import CacheHandler.

Lemma issue_ok (c : command) (st : state) :
  fails st (commandsIssued st) = false →
  issue c st =
  (match (exec_command (now st) c (store st)).1 with
   | RErr e => Throw (ErrorReply e)
   | r => Normal r
   end,
   set_store (exec_command (now st) c (store st)).2 (count_command st)).
Proof.
  intros Hf. unfold issue. rewrite Hf.
  by destruct (exec_command (now st) c (store st)) as [[] db].
Qed.

Lemma multi_exec_ok (queue : list command) (st : state) :
  fails st (commandsIssued st) = false →
  ∃ r, multi_exec queue st =
       (r, set_store (exec_queue (now st) queue (store st)).2 (count_command st)).
Proof.
  intros Hf. unfold multi_exec. rewrite Hf.
  destruct (exec_queue (now st) queue (store st)) as [rs db]; simpl.
  destruct (existsb is_error rs); by eexists.
Qed.

(** What [set] leaves in the store when nothing fails. *)
Lemma set_ready (key : string) (data : object) (ctx : context) (st : state)
    (text : string) :
  ready st → healthy st →
  accepted (now st) (revalidate_of data) →
  JSON_stringify (cacheEntry data (now st) (as_array (ctx_tags ctx)))
    = Normal text →
  ∃ st', set key data ctx st = (Normal tt, st') ∧
    store st' =
      (exec_queue (now st)
         (index_queue (CACHE_KEY_PREFIX +:+ key) (revalidate_of data)
            (as_array (ctx_tags ctx)))
         (<[CACHE_KEY_PREFIX +:+ key :=
              {| rval := RString text;
                 deadline := Some (now st + 1000 * revalidate_of data) |}]>
            (store st))).2 ∧
    now st' = now st ∧ ready st' ∧ healthy st'.
Proof.
  intros [Hc Hi] Hh Hpos Htext.
  pose proof (expire_ok_accepted _ _ Hpos) as Hs.
  unfold set, try_catch, bind.
  rewrite (ensureConnected_ready st Hc Hi). cbn [negb].
  unfold Date_now, lift. rewrite Htext.
  unfold client_set, bind. rewrite issue_ok by apply Hh.
  cbn [exec_command]. rewrite Hs. cbn [negb fst snd]. unfold ret.
  match goal with
  | |- context [multi_exec ?q ?s] =>
      destruct (multi_exec_ok q s) as [r Er]; [apply Hh|]; rewrite Er
  end.
  destruct r as [rs|e]; eexists; (split; [reflexivity|]); simpl; by repeat split.
Qed.

Lemma get_absent (key : string) (st : state) :
  ready st → healthy st →
  lookup_live (now st) (store st) (CACHE_KEY_PREFIX +:+ key) = None →
  (get key st).1 = Normal None.
Proof.
  intros [Hc Hi] Hh Hl. unfold get, try_catch, bind.
  rewrite (ensureConnected_ready st Hc Hi). cbn [negb].
  unfold client_get, bind. rewrite issue_ok by apply Hh.
  cbn [exec_command]. by rewrite Hl.
Qed.

Lemma get_present (key : string) (st : state) (e : rentry) (text : string) :
  ready st → healthy st →
  lookup_live (now st) (store st) (CACHE_KEY_PREFIX +:+ key) = Some e →
  rval e = RString text → text ≠ EmptyString →
  (get key st).1 =
  Normal (match JSON_parse text with Normal v => Some v | Throw _ => None end).
Proof.
  intros [Hc Hi] Hh Hl Hr Hne. unfold get, try_catch, bind.
  rewrite (ensureConnected_ready st Hc Hi). cbn [negb].
  unfold client_get, bind. rewrite issue_ok by apply Hh.
  cbn [exec_command]. rewrite Hl, Hr. cbn [fst snd]. unfold ret.
  cbn [falsy default from_option id].
  destruct (String.eqb_spec text EmptyString); [done|].
  unfold lift. by destruct (JSON_parse text).
Qed.

(** The entry key after [set]: the serialized entry with the new expiry,
    also when one of the tags names the same store key. *)
Lemma set_entry_lookup (key : string) (data : object) (ctx : context)
    (st : state) (text : string) :
  ready st → healthy st →
  accepted (now st) (revalidate_of data) →
  JSON_stringify (cacheEntry data (now st) (as_array (ctx_tags ctx)))
    = Normal text →
  store (set key data ctx st).2 !! (CACHE_KEY_PREFIX +:+ key) =
  Some {| rval := RString text;
          deadline := Some (now st + 1000 * revalidate_of data) |}.
Proof.
  intros Hr Hh Hpos Htext.
  destruct (set_ready key data ctx st text) as (st' & E & Es & _); try done.
  rewrite E. cbn [snd]. rewrite Es, index_queue_lookup by done.
  case_decide; [|by rewrite lookup_insert_eq].
  unfold lookup_live. rewrite lookup_insert_eq, live_stamp by done. done.
Qed.

(** C1, as the code has it: on a connected handler with no failure, a
    lifetime the store accepts, and an entry that the JSON encoding carries
    through, [get] right after [set] returns the entry [set] built.  Its
    [value] is the payload with [revalidate] set to the resolved lifetime,
    its [tags] the tags as a list. *)
Theorem set_then_get (key : string) (data : object) (ctx : context)
    (st : state) (text : string) :
  ready st → healthy st →
  accepted (now st) (revalidate_of data) →
  JSON_stringify (cacheEntry data (now st) (as_array (ctx_tags ctx)))
    = Normal text →
  text ≠ EmptyString →
  JSON_parse text
    = Normal (cacheEntry data (now st) (as_array (ctx_tags ctx))) →
  (get key (set key data ctx st).2).1 =
  Normal (Some (JObj
    [("value", JObj (obj_set data "revalidate" (JNum (revalidate_of data))));
     ("lastModified", JNum (now st));
     ("tags", JArr (JStr <$> as_array (ctx_tags ctx)))])).
Proof.
  intros Hr Hh Hpos Htext Hne Hparse.
  pose proof (set_entry_lookup key data ctx st text Hr Hh Hpos Htext) as Hl.
  destruct (set_ready key data ctx st text) as (st' & E & _ & En & Hr' & Hh');
    try done.
  rewrite E in *. cbn [snd] in *.
  rewrite (get_present key st'
             {| rval := RString text;
                deadline := Some (now st + 1000 * revalidate_of data) |}
             text Hr' Hh'); [by rewrite Hparse | | done | done].
  unfold lookup_live. rewrite Hl, En, live_stamp by done. done.
Qed.

End SetGet.

(** ** Expiry of what [set] writes *)

Section Expiry.
Context `{JsonCodec}.
Import CacheHandler.

Lemma typeof_number_revalidate (data : object) :
  typeof_number (obj_get data "revalidate") = false →
  revalidate_of data = DEFAULT_TTL.
Proof.
  unfold revalidate_of. by destruct (obj_get data "revalidate") as [[]|].
Qed.

Lemma number_revalidate (data : object) (n : Z) :
  obj_get data "revalidate" = Some (JNum n) → revalidate_of data = n.
Proof. unfold revalidate_of. by intros ->. Qed.

(** Every index key named by a tag of the call ends with the expiry of the
    entry written by the call. *)
Lemma set_index_lookup (key : string) (data : object) (ctx : context)
    (st : state) (text : string) (t : string) :
  ready st → healthy st →
  accepted (now st) (revalidate_of data) →
  JSON_stringify (cacheEntry data (now st) (as_array (ctx_tags ctx)))
    = Normal text →
  t ∈ as_array (ctx_tags ctx) →
  store (set key data ctx st).2 !! getTagIndexKey t =
  Some {| rval :=
            indexed (CACHE_KEY_PREFIX +:+ key)
              (lookup_live (now st)
                 (<[CACHE_KEY_PREFIX +:+ key :=
                      {| rval := RString text;
                         deadline := Some (now st + 1000 * revalidate_of data) |}]>
                    (store st))
                 (getTagIndexKey t));
          deadline := Some (now st + 1000 * revalidate_of data) |}.
Proof.
  intros Hr Hh Hpos Htext Ht.
  destruct (set_ready key data ctx st text) as (st' & E & Es & _); try done.
  rewrite E. cbn [snd]. rewrite Es, index_queue_lookup by done.
  rewrite decide_True; [done|]. by apply list_elem_of_fmap_2.
Qed.

(** A lifetime the store does not accept is sent as it is; the store
    refuses the write and keeps what it had. *)
Lemma set_rejected (key : string) (data : object) (ctx : context)
    (st : state) :
  ready st → ¬ accepted (now st) (revalidate_of data) →
  store (set key data ctx st).2 = store st.
Proof.
  intros [Hc Hi] Hno.
  assert (Hs : expire_ok (now st) (revalidate_of data) = false).
  { apply not_true_is_false. intros Hok. apply Hno.
    apply andb_true_iff in Hok as [Hpos Hmax].
    split; [by apply Z.ltb_lt | by apply Z.leb_le]. }
  unfold set, try_catch, bind.
  rewrite (ensureConnected_ready st Hc Hi). cbn [negb].
  unfold Date_now, lift.
  destruct (JSON_stringify _) as [text|e]; [|done].
  unfold client_set, bind, issue.
  destruct (fails st (commandsIssued st)); [done|].
  cbn [exec_command]. by rewrite Hs.
Qed.

(** C7, as the code has it: the lifetime [set] resolves is
    [data.revalidate] whenever that is a number, and the default of 84600
    seconds when it is absent or not a number.  A lifetime the store
    accepts (positive, with an expiry instant in range) is applied to the
    entry and to every index the call touches.  A number the store does not
    accept, zero and the negative ones among them, is not replaced by the
    default: the store refuses the write and nothing is stored. *)
Theorem set_applies_ttl (key : string) (data : object) (ctx : context)
    (st : state) (text : string) :
  ready st → healthy st →
  JSON_stringify (cacheEntry data (now st) (as_array (ctx_tags ctx)))
    = Normal text →
  let db' := store (set key data ctx st).2 in
  let applied (ttl : Z) :=
    (∃ e, db' !! (CACHE_KEY_PREFIX +:+ key) = Some e ∧
          deadline e = Some (now st + 1000 * ttl)) ∧
    (∀ t, t ∈ as_array (ctx_tags ctx) →
       ∃ e, db' !! getTagIndexKey t = Some e ∧
            deadline e = Some (now st + 1000 * ttl)) in
  (∀ n, obj_get data "revalidate" = Some (JNum n) →
     accepted (now st) n → applied n) ∧
  (typeof_number (obj_get data "revalidate") = false →
   accepted (now st) 84600 → applied 84600) ∧
  (∀ n, obj_get data "revalidate" = Some (JNum n) →
     ¬ accepted (now st) n → db' = store st).
Proof.
  intros Hr Hh Htext db' applied.
  assert (Happlied : accepted (now st) (revalidate_of data) →
                     applied (revalidate_of data)).
  { intros Hok. split.
    - eexists. split; [by eapply set_entry_lookup|done].
    - intros t Ht. eexists. split; [by eapply set_index_lookup|done]. }
  split; [|split].
  - intros n Hn Hok. rewrite <- (number_revalidate data n Hn) in *. auto.
  - intros Hty Hok. apply typeof_number_revalidate in Hty.
    change 84600 with DEFAULT_TTL in *. rewrite <- Hty in *. by apply Happlied.
  - intros n Hn Hno. apply set_rejected; [done|].
    by rewrite (number_revalidate data n Hn).
Qed.

End Expiry.

(** ** What the methods can do to the store, failures included *)

Section Writes.
Context `{JsonCodec}.
Import CacheHandler.

Lemma exec_del_lookup (now : Z) (ks : list string) :
  ∀ (db : gmap string rentry) (k : string),
    (exec_queue now (DEL <$> ks) db).2 !! k =
    if decide (k ∈ ks) then None else db !! k.
Proof.
  induction ks as [|k0 ks IH]; intros db k; [done|].
  rewrite fmap_cons. cbn [exec_queue exec_command].
  specialize (IH (delete k0 db) k).
  destruct (exec_queue now (DEL <$> ks) (delete k0 db)) as [rs db2].
  cbn [snd] in *. rewrite IH.
  destruct (decide (k ∈ ks)) as [Hin|Hin].
  - rewrite decide_True; [done|by right].
  - destruct (decide (k = k0)) as [->|Hne].
    + rewrite decide_True; [|by left]. by rewrite lookup_delete_eq.
    + rewrite decide_False; [by rewrite lookup_delete_ne|].
      by intros [?|?]%elem_of_cons.
Qed.

Lemma exec_del_replies (now : Z) (ks : list string) :
  ∀ db : gmap string rentry,
    existsb is_error (exec_queue now (DEL <$> ks) db).1 = false.
Proof.
  induction ks as [|k0 ks IH]; intros db; [done|].
  rewrite fmap_cons. cbn [exec_queue exec_command].
  specialize (IH (delete k0 db)).
  by destruct (exec_queue now (DEL <$> ks) (delete k0 db)) as [rs db2].
Qed.

Lemma exec_del_subseteq (now : Z) (ks : list string) (db : gmap string rentry) :
  (exec_queue now (DEL <$> ks) db).2 ⊆ db.
Proof.
  apply map_subseteq_spec. intros k e. rewrite exec_del_lookup.
  by case_decide.
Qed.

Lemma issue_store (c : command) (st : state) :
  (store (issue c st).2 = store st ∨
   store (issue c st).2 = (exec_command (now st) c (store st)).2) ∧
  now (issue c st).2 = now st.
Proof.
  unfold issue. destruct (fails st (commandsIssued st)); [by split; [left|]|].
  destruct (exec_command (now st) c (store st)) as [[] db]; by split; [right|].
Qed.

Lemma multi_exec_store (queue : list command) (st : state) :
  (store (multi_exec queue st).2 = store st ∨
   store (multi_exec queue st).2 = (exec_queue (now st) queue (store st)).2) ∧
  now (multi_exec queue st).2 = now st.
Proof.
  unfold multi_exec. destruct (fails st (commandsIssued st)); [by split; [left|]|].
  destruct (exec_queue (now st) queue (store st)) as [rs db]; cbn [snd].
  destruct (existsb is_error rs); by split; [right|].
Qed.

(** Reading never changes the store. *)
Lemma client_sMembers_store (k : string) (st : state) :
  store (client_sMembers k st).2 = store st.
Proof.
  unfold client_sMembers, bind.
  pose proof (issue_store (SMEMBERS k) st) as [Hs _].
  destruct (issue (SMEMBERS k) st) as [[r|e] st1]; unfold ret; cbn [snd] in *.
  all: destruct Hs as [E|E]; rewrite E; [done|]; cbn [exec_command].
  all: destruct (lookup_live (now st) (store st) k) as [e'|]; [|done].
  all: by destruct (rval e').
Qed.

Lemma client_get_store (k : string) (st : state) :
  store (client_get k st).2 = store st.
Proof.
  unfold client_get, bind.
  pose proof (issue_store (GET k) st) as [Hs _].
  destruct (issue (GET k) st) as [[r|e] st1]; unfold ret; cbn [snd] in *.
  all: destruct Hs as [E|E]; rewrite E; [done|]; cbn [exec_command].
  all: destruct (lookup_live (now st) (store st) k) as [e'|]; [|done].
  all: by destruct (rval e').
Qed.

(** Revalidation only ever removes keys. *)
Lemma revalidate_each_shrinks (tagArray : list string) :
  ∀ st, store (revalidate_each tagArray st).2 ⊆ store st.
Proof.
  induction tagArray as [|tag rest IH]; intros st; [done|].
  cbn [revalidate_each]. unfold bind at 1.
  pose proof (client_sMembers_store (getTagIndexKey tag) st) as Hs.
  destruct (client_sMembers (getTagIndexKey tag) st) as [[cacheKeys|e] st1];
    cbn [snd] in *; [|by rewrite Hs].
  destruct cacheKeys as [|k ks]; [rewrite <- Hs; apply IH|].
  unfold bind.
  match goal with
  | |- context [multi_exec ?q st1] =>
      pose proof (multi_exec_store q st1) as [Hm _];
      destruct (multi_exec q st1) as [[rs|e] st2]
  end; cbn [snd] in *.
  - etrans; [apply IH|]. rewrite <- Hs.
    destruct Hm as [->| ->]; [done|].
    change [DEL (getTagIndexKey tag)] with (DEL <$> [getTagIndexKey tag]).
    rewrite <- fmap_app. apply exec_del_subseteq.
  - rewrite <- Hs. destruct Hm as [->| ->]; [done|].
    change [DEL (getTagIndexKey tag)] with (DEL <$> [getTagIndexKey tag]).
    rewrite <- fmap_app. apply exec_del_subseteq.
Qed.

Lemma revalidateTag_shrinks (tags : tags_arg) (st : state) :
  store (revalidateTag tags st).2 ⊆ store st.
Proof.
  unfold revalidateTag, try_catch, bind.
  destruct (ensureConnected_total st) as (b & st1 & E & Es & _). rewrite E.
  destruct b; cbn [negb]; [|by rewrite <- Es].
  pose proof (revalidate_each_shrinks (as_array tags) st1) as Hsub.
  destruct (revalidate_each (as_array tags) st1) as [[|e] st2];
    cbn [snd] in *; by rewrite <- Es.
Qed.

Lemma get_store (key : string) (st : state) :
  store (get key st).2 = store st.
Proof.
  unfold get, try_catch, bind.
  destruct (ensureConnected_total st) as (b & st1 & E & Es & _). rewrite E.
  destruct b; cbn [negb]; [|done].
  pose proof (client_get_store (CACHE_KEY_PREFIX +:+ key) st1) as Hs.
  destruct (client_get (CACHE_KEY_PREFIX +:+ key) st1) as [[data|e] st2];
    cbn [snd] in *; [|simpl; by rewrite Hs, Es].
  destruct (falsy data); [simpl; by rewrite Hs, Es|].
  unfold lift. destruct (JSON_parse _); simpl; by rewrite Hs, Es.
Qed.

Lemma client_set_cases (k v : string) (seconds : Z) (st st' : state)
    (r : completion unit) :
  client_set k v seconds st = (r, st') →
  now st' = now st ∧
  (store st' = store st ∧ r ≠ Normal tt ∨
   r = Normal tt ∧ accepted (now st) seconds ∧
   store st' = <[k := {| rval := RString v;
                         deadline := Some (now st + 1000 * seconds) |}]>
                 (store st)).
Proof.
  unfold client_set, bind, issue.
  destruct (fails st (commandsIssued st)); [intros [= <- <-]; by split; [|left]|].
  cbn [exec_command].
  destruct (expire_ok (now st) seconds) eqn:Hok; cbn [negb];
    intros [= <- <-]; (split; [done|]); [|by left].
  right. apply andb_true_iff in Hok as [Hpos Hmax].
  repeat split; [by apply Z.ltb_lt | by apply Z.leb_le].
Qed.

Lemma set_writes_queue (key : string) (data : object) (ctx : context)
    (text : string) (st st2 st3 : state) :
  accepted (now st2) (revalidate_of data) →
  store st2 =
    <[CACHE_KEY_PREFIX +:+ key :=
        {| rval := RString text;
           deadline := Some (now st2 + 1000 * revalidate_of data) |}]>
      (store st) →
  store st3 = store st2 ∨
  store st3 =
    (exec_queue (now st2)
       (index_queue (CACHE_KEY_PREFIX +:+ key) (revalidate_of data)
          (as_array (ctx_tags ctx))) (store st2)).2 →
  now st3 = now st2 →
  set_writes_only data st st3.
Proof.
  intros Hpos Hs2 Hs3 Hn k e. rewrite Hn.
  assert (Hins : store st2 !! k = Some e →
            store st !! k = Some e ∨
            deadline e = Some (now st2 + 1000 * revalidate_of data)).
  { rewrite Hs2. destruct (decide (k = CACHE_KEY_PREFIX +:+ key)) as [->|Hne].
    - rewrite lookup_insert_eq. intros [= <-]. by right.
    - rewrite lookup_insert_ne by done. auto. }
  destruct Hs3 as [->| ->]; [done|].
  rewrite index_queue_lookup by done.
  case_decide; [intros [= <-]; by right | done].
Qed.

(** Whatever fails, an entry found in the store after [set] was there
    before or carries the expiry of this call. *)
Lemma set_writes (key : string) (data : object) (ctx : context) (st : state) :
  set_writes_only data st (set key data ctx st).2.
Proof.
  destruct (set key data ctx st) as [r st'] eqn:E. cbn [snd].
  assert (Hframe : ∀ st1, store st1 = store st → set_writes_only data st st1).
  { intros st1 Hs k e. rewrite Hs. auto. }
  assert (Hlog : ∀ line st1, set_writes_only data st st1 →
                   set_writes_only data st (log line st1)) by done.
  assert (Hbody : ∀ r1 st1,
    (connected ← ensureConnected;
     if negb connected then console_warn "Redis unavailable in set()"
     else
       lastModified ← Date_now;
       serialized ← lift (JSON_stringify
         (cacheEntry data lastModified (as_array (ctx_tags ctx))));
       client_set (CACHE_KEY_PREFIX +:+ key) serialized (revalidate_of data);;
       multi_exec (index_queue (CACHE_KEY_PREFIX +:+ key) (revalidate_of data)
                     (as_array (ctx_tags ctx)));;
       ret tt)%M st = (r1, st1) → set_writes_only data st st1).
  { intros r1 st1 Eb.
    destruct (ensureConnected_total st) as (b & st0 & E0 & Es & _).
    apply bind_inv in Eb as [(b' & st0' & E0' & Eb)|(e0 & E0' & _)];
      [|by rewrite E0 in E0'].
    rewrite E0 in E0'. injection E0' as <- <-.
    destruct b; cbn [negb] in Eb;
      [|injection Eb as <- <-; by apply Hlog, Hframe].
    apply bind_inv in Eb as [(t0 & s0 & Et & Eb)|(e0 & Et & _)]; [|done].
    injection Et as <- <-.
    apply bind_inv in Eb as [(text & s0 & Et & Eb)|(e0 & Et & _)];
      [|unfold lift in Et; injection Et as _ <-; by apply Hframe].
    unfold lift in Et. injection Et as Et <-.
    apply bind_inv in Eb as [([] & st2 & Ec & Eb)|(e0 & Ec & _)];
      apply client_set_cases in Ec as [Hn [[Hs Hne]|(Hr & Hpos & Hs)]];
      try done; try (apply Hframe; congruence).
    pose proof (multi_exec_store
      (index_queue (CACHE_KEY_PREFIX +:+ key) (revalidate_of data)
         (as_array (ctx_tags ctx))) st2) as [Hm Hn3].
    rewrite <- Hn, Es in Hs. rewrite <- Hn in Hpos.
    apply bind_inv in Eb as [(rs & st3 & Em & Eb)|(e0 & Em & _)];
      [injection Eb as _ <-|]; rewrite Em in Hm, Hn3; cbn [snd] in Hm, Hn3;
      by eapply set_writes_queue. }
  unfold set in E.
  apply try_catch_inv in E as [(a & Eb & _)|(e0 & st1 & Eb & Eh)].
  - by eapply Hbody.
  - injection Eh as _ <-. eapply Hlog, Hbody, Eb.
Qed.

(** C10: whatever fails, every entry [set] leaves in the store and did not
    find there carries the expiry of the call, the resolved lifetime counted
    from the time of the write; [get] and [revalidateTag] leave no entry
    that was not already there.  So a store whose keys all expire stays
    one. *)
Theorem writes_carry_expiry (st : state) :
  (∀ key data ctx k e,
     store (set key data ctx st).2 !! k = Some e →
     store st !! k = Some e ∨
     deadline e =
       Some (now (set key data ctx st).2 + 1000 * revalidate_of data)) ∧
  (∀ key, store (get key st).2 = store st) ∧
  (∀ tags, store (revalidateTag tags st).2 ⊆ store st) ∧
  (all_expiring (store st) →
   (∀ key data ctx, all_expiring (store (set key data ctx st).2)) ∧
   (∀ key, all_expiring (store (get key st).2)) ∧
   (∀ tags, all_expiring (store (revalidateTag tags st).2))).
Proof.
  split; [intros key data ctx; apply set_writes|].
  split; [intros key; apply get_store|].
  split; [intros tags; apply revalidateTag_shrinks|].
  intros Hall. split; [|split].
  - intros key data ctx k e Hk.
    destruct (set_writes key data ctx st k e Hk) as [Hold| ->]; [|done].
    by eapply Hall.
  - intros key. by rewrite get_store.
  - intros tags k e Hk. eapply Hall.
    by eapply lookup_weaken; [|apply revalidateTag_shrinks].
Qed.

End Writes.

(** ** Revalidation *)

Section Revalidation.
Context `{JsonCodec}.
Import CacheHandler.

Lemma revalidate_each_app (pre rest : list string) (st : state) :
  revalidate_each (pre ++ rest) st =
  (revalidate_each pre;; revalidate_each rest)%M st.
Proof.
  revert st. induction pre as [|tag pre IH]; intros st; [done|].
  cbn [app revalidate_each]. unfold bind in *.
  destruct (client_sMembers (getTagIndexKey tag) st) as [[cacheKeys|e] st1];
    [|done].
  destruct cacheKeys as [|k ks]; [apply IH|].
  destruct (multi_exec _ st1) as [[rs|e] st2]; [apply IH|done].
Qed.

(** C5, as the code has it: the loop over the tags sits in one [try]; a
    failure while one tag is processed ends the call there.  The tags
    before it have been processed, the tags after it are neither read nor
    deleted, and the call still resolves. *)
Theorem revalidateTag_stops_at_failure (pre rest : list string)
    (tag : string) (st st1 st2 : state) (e : exn) :
  ready st →
  revalidate_each pre st = (Normal tt, st1) →
  revalidate_each [tag] st1 = (Throw e, st2) →
  revalidateTag (TagArray (pre ++ tag :: rest)) st =
    (Normal tt, log "Error revalidating tags:" st2).
Proof.
  intros [Hc Hi] Hpre Htag.
  unfold revalidateTag, try_catch, bind at 1.
  rewrite (ensureConnected_ready st Hc Hi). cbn [negb as_array].
  rewrite revalidate_each_app. unfold bind at 1. rewrite Hpre.
  change (tag :: rest) with ([tag] ++ rest)%list.
  rewrite revalidate_each_app. unfold bind at 1. by rewrite Htag.
Qed.

Lemma client_sMembers_set (k : string) (st : state) (e : rentry)
    (members : gset string) :
  fails st (commandsIssued st) = false →
  lookup_live (now st) (store st) k = Some e → rval e = RSet members →
  client_sMembers k st = (Normal (elements members), count_command st).
Proof.
  intros Hf Hl Hr. unfold client_sMembers, bind, issue. rewrite Hf.
  cbn [exec_command]. by rewrite Hl, Hr.
Qed.

(** One tag on a connected handler with no failure: the members of a live
    index and the index itself are deleted. *)
Lemma revalidate_one (t : string) (st : state) (e : rentry)
    (members : gset string) :
  ready st → healthy st →
  lookup_live (now st) (store st) (getTagIndexKey t) = Some e →
  rval e = RSet members → members ≠ ∅ →
  ∃ st', revalidateTag (OneTag t) st = (Normal tt, st') ∧
    (∀ k, store st' !! k =
          if decide (k ∈ (elements members ++ [getTagIndexKey t])%list)
          then None else store st !! k) ∧
    now st' = now st ∧ ready st' ∧ healthy st'.
Proof.
  intros [Hc Hi] Hh Hl Hr Hne.
  destruct (elements members) as [|k ks] eqn:Hel.
  { by apply elements_empty_inv, leibniz_equiv in Hel. }
  unfold revalidateTag, try_catch.
  rewrite (bind_normal _ _ _ _ _ (ensureConnected_ready st Hc Hi)).
  cbn [negb as_array revalidate_each].
  rewrite (bind_normal _ _ _ _ _
             (client_sMembers_set _ st e members (Hh _) Hl Hr)).
  rewrite Hel. unfold bind, multi_exec.
  change (fails (count_command st)) with (fails st). rewrite Hh.
  change [DEL (getTagIndexKey t)] with (DEL <$> [getTagIndexKey t]).
  rewrite <- fmap_app.
  pose proof (exec_del_replies (now (count_command st))
                ((k :: ks) ++ [getTagIndexKey t]) (store (count_command st)))
    as Hrep.
  pose proof (exec_del_lookup (now (count_command st))
                ((k :: ks) ++ [getTagIndexKey t]) (store (count_command st)))
    as Hlk.
  destruct (exec_queue _ _ _) as [rs db]. cbn [fst snd] in *.
  rewrite Hrep. eexists. split; [reflexivity|].
  split; [exact Hlk|]. by repeat split.
Qed.

(** When the index of [t] is live and holds a set, [revalidateTag(t)] on a
    connected handler with no failure deletes the index, and [get] returns
    [undefined] for every key whose store key is a member of it. *)
Theorem revalidateTag_clears (t : string) (st : state) (e : rentry)
    (members : gset string) :
  ready st → healthy st →
  lookup_live (now st) (store st) (getTagIndexKey t) = Some e →
  rval e = RSet members → members ≠ ∅ →
  store (revalidateTag (OneTag t) st).2 !! getTagIndexKey t = None ∧
  ∀ key, CACHE_KEY_PREFIX +:+ key ∈ members →
    (get key (revalidateTag (OneTag t) st).2).1 = Normal None.
Proof.
  intros Hr Hh Hl Hv Hne.
  destruct (revalidate_one t st e members) as (st' & E & Hk & Hn & Hr' & Hh');
    try done.
  rewrite E. cbn [snd]. split.
  - rewrite Hk, decide_True; [done|]. apply elem_of_app. right. by left.
  - intros key Hin. apply get_absent; try done.
    unfold lookup_live. rewrite Hk, decide_True; [done|].
    apply elem_of_app. left. by apply elem_of_elements.
Qed.

End Revalidation.

(** ** Key spaces *)

Section KeySpaces.
Context `{JsonCodec}.
Import CacheHandler.

(** C9: the index of tag [t] lives under the store key of the cache entry
    whose key is ["tags:" + t], and both writes land there: a [set] tagged
    with [t] leaves the index, a set holding the key of its entry, under
    that store key, and a [set] whose own key is ["tags:" + t] leaves its
    serialized entry, a string, under the same store key. *)
Theorem tag_index_key_is_entry_key (t : string) :
  getTagIndexKey t = CACHE_KEY_PREFIX +:+ ("tags:" +:+ t) ∧
  (∀ key data ctx st text,
     ready st → healthy st → accepted (now st) (revalidate_of data) →
     JSON_stringify (cacheEntry data (now st) (as_array (ctx_tags ctx)))
       = Normal text →
     t ∈ as_array (ctx_tags ctx) → key ≠ "tags:" +:+ t →
     lookup_live (now st) (store st)
       (CACHE_KEY_PREFIX +:+ ("tags:" +:+ t)) = None →
     store (set key data ctx st).2 !! (CACHE_KEY_PREFIX +:+ ("tags:" +:+ t)) =
     Some {| rval := RSet {[CACHE_KEY_PREFIX +:+ key]};
             deadline := Some (now st + 1000 * revalidate_of data) |}) ∧
  (∀ data ctx st text,
     ready st → healthy st → accepted (now st) (revalidate_of data) →
     JSON_stringify (cacheEntry data (now st) (as_array (ctx_tags ctx)))
       = Normal text →
     store (set ("tags:" +:+ t) data ctx st).2
       !! (CACHE_KEY_PREFIX +:+ ("tags:" +:+ t)) =
     Some {| rval := RString text;
             deadline := Some (now st + 1000 * revalidate_of data) |}).
Proof.
  split; [done|]. split.
  - intros key data ctx st text Hr Hh Hok Htext Ht Hne Hfree.
    change (CACHE_KEY_PREFIX +:+ ("tags:" +:+ t)) with (getTagIndexKey t) in *.
    rewrite (set_index_lookup key data ctx st text t) by done.
    rewrite lookup_live_ne, Hfree; [done|].
    intros E. apply Hne. by apply (inj (String.append CACHE_KEY_PREFIX)).
  - intros data ctx st text Hr Hh Hok Htext.
    by apply (set_entry_lookup ("tags:" +:+ t)).
Qed.

End KeySpaces.

(** ** The connection *)

Section Reconnection.
Import CacheHandler.

Lemma connect_loop_attempts (fuel : nat) :
  ∀ retries st,
    (socketAttempts st < socketAttempts (connect_loop (S fuel) retries st).2)%nat.
Proof.
  induction fuel as [|fuel IH]; intros retries st.
  - cbn [connect_loop]. destruct (unreachable st (socketAttempts st)); [|simpl; lia].
    destruct (reconnectStrategy retries); simpl; lia.
  - remember (S fuel) as fuel' eqn:Ef. cbn [connect_loop].
    destruct (unreachable st (socketAttempts st)); [|simpl; lia].
    destruct (reconnectStrategy retries) as [delay|]; [|simpl; lia].
    subst fuel'. etrans; [|apply IH]. simpl. lia.
Qed.

(** While the handler has a client, no connection and no attempt in
    flight, every call of [ensureConnected] calls [connect()] again:
    nothing records that the strategy gave up. *)
Lemma ensureConnected_reattempts (st : state) :
  redisClient st = true → isConnected st = false →
  connectionPromise st = false →
  connectCalls (ensureConnected st).2 = S (connectCalls st).
Proof.
  intros Hc Hi Hp. unfold ensureConnected, ensureConnected_enter.
  rewrite Hc, Hi, Hp. cbn [negb].
  set (st1 := set_connectionPromise true (count_connectCall st)).
  pose proof (connect_loop_frame 5 0 st1) as (_ & _ & _ & _ & _ & _ & Hcc).
  destruct (connect_loop 5 0 st1) as [r st2]. cbn [snd] in *.
  destruct r; simpl; by rewrite Hcc.
Qed.

End Reconnection.

(** C4, evaluated: the store is unreachable from the start.  The first
    [get] exhausts the strategy after five socket attempts and logs that
    the cache is being disabled (the console is listed newest line first);
    the client handle stays in place and the
    next [get], which misses as well, calls [connect()] again and makes five
    more socket attempts. *)
Theorem retry_ceiling_does_not_disable :
  let first := @CacheHandler.get Json.codec "page:/o/acme" unreachable_handler in
  let second := @CacheHandler.get Json.codec "page:/o/acme" first.2 in
  first.1 = Normal None ∧
  console first.2 =
    ["Redis unavailable in get()"; "Failed to connect to Redis:";
     "Redis client error:";
     "Redis reconnection attempts exceeded, disabling cache";
     "Redis client error:"; "Redis client error:"; "Redis client error:";
     "Redis client error:"] ∧
  redisClient first.2 = true ∧
  connectCalls first.2 = 1%nat ∧ socketAttempts first.2 = 5%nat ∧
  second.1 = Normal None ∧
  connectCalls second.2 = 2%nat ∧ socketAttempts second.2 = 10%nat.
Proof. vm_compute. by repeat split. Qed.

(** ** Single flight *)

Section SingleFlightProofs.
Import CacheHandler SingleFlight.

Lemma run_app (evs1 evs2 : list event) (s : sched) :
  run (evs1 ++ evs2) s = run evs2 (run evs1 s).
Proof. apply foldl_app. Qed.

Lemma run_cons (ev : event) (evs : list event) (s : sched) :
  run (ev :: evs) s = run evs (step ev s).
Proof. done. Qed.

Lemma step_call_join (c : nat) (s : sched) :
  redisClient (handler s) = true → isConnected (handler s) = false →
  connectionPromise (handler s) = true →
  step (Call c) s =
  {| handler := handler s; awaiting := c :: awaiting s;
     resolved := resolved s |}.
Proof.
  intros Hc Hi Hp. unfold step, ensureConnected_enter.
  by rewrite Hc, Hi, Hp.
Qed.

Lemma step_call_start (c : nat) (s : sched) :
  redisClient (handler s) = true → isConnected (handler s) = false →
  connectionPromise (handler s) = false →
  step (Call c) s =
  {| handler := set_connectionPromise true (count_connectCall (handler s));
     awaiting := c :: awaiting s; resolved := resolved s |}.
Proof.
  intros Hc Hi Hp. unfold step, ensureConnected_enter.
  by rewrite Hc, Hi, Hp.
Qed.

(** Callers arriving while an attempt is in flight join it. *)
Lemma run_calls_join (callers : list nat) :
  ∀ s, redisClient (handler s) = true → isConnected (handler s) = false →
    connectionPromise (handler s) = true →
    run (Call <$> callers) s =
    {| handler := handler s; awaiting := reverse callers ++ awaiting s;
       resolved := resolved s |}.
Proof.
  induction callers as [|c callers IH]; intros s Hc Hi Hp.
  - by destruct s.
  - rewrite fmap_cons, run_cons, step_call_join by done.
    rewrite IH by done. cbn [handler awaiting resolved].
    by rewrite reverse_cons, <- (assoc_L (++)).
Qed.

(** C8: callers that invoke [ensureConnected] before any connection exists,
    and before the attempt settles, cause one call of [connect()]; none of
    them is resumed before the attempt settles, and then all are, with the
    same value, the outcome of that attempt. *)
Theorem single_flight (c : nat) (callers : list nat) (st : state)
    (r : completion unit) :
  redisClient st = true → isConnected st = false →
  connectionPromise st = false →
  let waiting := run (Call <$> c :: callers) (idle st) in
  let settled := step (Settle r) waiting in
  connectCalls (handler waiting) = S (connectCalls st) ∧
  resolved waiting = [] ∧
  awaiting waiting = reverse (c :: callers) ∧
  connectCalls (handler settled) = S (connectCalls st) ∧
  awaiting settled = [] ∧
  resolved settled = (fun c => (c, succeeded r)) <$> reverse (c :: callers) ∧
  isConnected (handler settled) = succeeded r ∧
  connectionPromise (handler settled) = false.
Proof.
  intros Hc Hi Hp waiting settled. subst settled waiting.
  rewrite fmap_cons, run_cons, step_call_start by done.
  rewrite run_calls_join by done. cbn [handler awaiting resolved idle].
  rewrite <- reverse_cons.
  unfold step. cbn [handler awaiting resolved connectionPromise
                      set_connectionPromise].
  destruct r; cbn; by rewrite ?app_nil_r.
Qed.

End SingleFlightProofs.

(** ** The theorems at work, and where the specification's reading fails *)

Section Instances.
Import CacheHandler.
Existing Instance Json.codec.

Lemma connected_handler_ready (db : gmap string rentry) (clock : Z) :
  ready (connected_handler db clock).
Proof. by split. Qed.

Lemma connected_handler_healthy (db : gmap string rentry) (clock : Z) :
  healthy (connected_handler db clock).
Proof. by intros n. Qed.

Lemma set_then_get_witness :
  (get "page:/o/acme" acme_cached).1 =
  Normal (Some (JObj
    [("value", JObj [("value", JStr "<rendered/>"); ("revalidate", JNum 84600)]);
     ("lastModified", JNum 0);
     ("tags", JArr [JStr "tenant:acme"])])).
Proof.
  apply (set_then_get "page:/o/acme" acme_page acme_ctx (connected_handler ∅ 0)
           (Json.print (cacheEntry acme_page 0 ["tenant:acme"]))).
  - split; reflexivity.
  - intros n; reflexivity.
  - split; [reflexivity | discriminate].
  - reflexivity.
  - vm_compute. discriminate.
  - vm_compute. reflexivity.
Defined.

(** C1 as the specification words it fails on the first example of the
    specification: the entry that comes back holds the payload with
    [revalidate] added, not the payload. *)
Lemma get_value_is_not_payload :
  ¬ (∀ (st : state) (key : string) (data : object) (ctx : context),
       ready st → healthy st →
       ∃ entry,
         (get key (set key data ctx st).2).1 = Normal (Some entry) ∧
         json_field entry "value" = Some (JObj data) ∧
         json_field entry "tags"
           = Some (JArr (JStr <$> as_array (ctx_tags ctx)))).
Proof.
  intros Hclaim.
  destruct (Hclaim (connected_handler ∅ 0) "page:/o/acme" acme_page acme_ctx)
    as (entry & Hget & Hvalue & _).
  - apply connected_handler_ready.
  - apply connected_handler_healthy.
  - vm_compute in Hget. injection Hget as <-. vm_compute in Hvalue.
    discriminate.
Qed.

Lemma revalidateTag_clears_witness :
  store (revalidateTag (OneTag "tenant:acme") acme_cached).2
    !! getTagIndexKey "tenant:acme" = None ∧
  (get "page:/o/acme"
     (revalidateTag (OneTag "tenant:acme") acme_cached).2).1 = Normal None.
Proof.
  destruct (revalidateTag_clears "tenant:acme" acme_cached
              {| rval := RSet {["basechat:page:/o/acme"]};
                 deadline := Some 84600000 |}
              {["basechat:page:/o/acme"]}) as [Hindex Hkeys].
  - split; reflexivity.
  - intros n; reflexivity.
  - vm_compute. reflexivity.
  - reflexivity.
  - intros Hempty. apply (f_equal elements) in Hempty. vm_compute in Hempty.
    discriminate.
  - split; [exact Hindex|]. apply Hkeys. apply elem_of_singleton. reflexivity.
Defined.

(** C2, evaluated: no failure of the store is involved.  A page is cached
    for an hour and another for a minute under the same tag; the second
    [set] shortens the expiry of the index to a minute; 61 seconds later
    the index has expired, [revalidateTag] reads no member and deletes
    nothing, and the first page is still served. *)
Theorem revalidateTag_misses_after_index_expiry :
  let st :=
    run_calls [CallSet "page:/o/acme" hour_page acme_ctx;
               CallSet "page:/o/acme/faq" minute_page acme_ctx;
               Wait 61000;
               CallRevalidateTag (OneTag "tenant:acme")]
      (connected_handler ∅ 0) in
  console st = [] ∧
  (get "page:/o/acme" st).1 =
    Normal (Some (cacheEntry hour_page 0 ["tenant:acme"])).
Proof. vm_compute. by split. Qed.

Lemma revalidateTag_stops_at_failure_witness :
  revalidateTag (TagArray ["a"; "b"]) failing_once =
  (Normal tt, log "Error revalidating tags:" (count_command failing_once)).
Proof.
  apply (revalidateTag_stops_at_failure [] ["b"] "a" failing_once failing_once
           (count_command failing_once) TransportError).
  - split; reflexivity.
  - reflexivity.
  - reflexivity.
Defined.

(** C5 as the specification words it fails: the read for the first tag
    fails, and the members of the second tag are still in the store when
    the call has resolved. *)
Lemma revalidateTag_failure_skips_later_tags :
  ¬ (∀ (st : state) (t1 t2 member : string) (index : rentry)
       (members : gset string),
       ready st → fails st (commandsIssued st) = true →
       (∀ n, (commandsIssued st < n)%nat → fails st n = false) →
       lookup_live (now st) (store st) (getTagIndexKey t2) = Some index →
       rval index = RSet members → member ∈ members →
       store (revalidateTag (TagArray [t1; t2]) st).2 !! member = None).
Proof.
  intros Hclaim.
  specialize (Hclaim failing_once "a" "b" "basechat:k"
    {| rval := RSet {["basechat:k"]}; deadline := Some 60000 |}
    {["basechat:k"]}).
  assert (Hlater : ∀ n, (commandsIssued failing_once < n)%nat →
                        fails failing_once n = false).
  { intros [|n] Hn; [simpl in Hn; lia | reflexivity]. }
  specialize (Hclaim ltac:(by split) eq_refl Hlater eq_refl eq_refl
                ltac:(by apply elem_of_singleton)).
  vm_compute in Hclaim. discriminate.
Qed.

(** C6, evaluated: after a page cached for an hour and another for a
    minute under the same tag, the index carries the expiry of the second
    [set]; 61 seconds later the index is gone while the first page, which
    it indexed, is live. *)
Theorem index_expires_before_entry :
  let st :=
    run_calls [CallSet "page:/o/acme" hour_page acme_ctx;
               CallSet "page:/o/acme/faq" minute_page acme_ctx]
      (connected_handler ∅ 0) in
  store st !! getTagIndexKey "tenant:acme" =
    Some {| rval := RSet ({["basechat:page:/o/acme/faq"]}
                            ∪ {["basechat:page:/o/acme"]});
            deadline := Some 60000 |} ∧
  store st !! "basechat:page:/o/acme" =
    Some {| rval :=
              RString (Json.print (cacheEntry hour_page 0 ["tenant:acme"]));
            deadline := Some 3600000 |} ∧
  lookup_live 61000 (store st) (getTagIndexKey "tenant:acme") = None ∧
  lookup_live 61000 (store st) "basechat:page:/o/acme" =
    store st !! "basechat:page:/o/acme".
Proof. vm_compute. by repeat split. Qed.

Lemma set_applies_ttl_witness :
  (∃ e, store acme_cached !! "basechat:page:/o/acme" = Some e ∧
        deadline e = Some (0 + 1000 * 84600)) ∧
  store (set "page:/o/acme" [("revalidate", JNum 0)] acme_ctx
           (connected_handler ∅ 0)).2 = ∅.
Proof.
  destruct (set_applies_ttl "page:/o/acme" acme_page acme_ctx
              (connected_handler ∅ 0)
              (Json.print (cacheEntry acme_page 0 ["tenant:acme"])))
    as (_ & Hdefault & _).
  - split; reflexivity.
  - intros n; reflexivity.
  - reflexivity.
  - destruct (set_applies_ttl "page:/o/acme" [("revalidate", JNum 0)] acme_ctx
                (connected_handler ∅ 0)
                (Json.print (cacheEntry [("revalidate", JNum 0)] 0
                               ["tenant:acme"])))
      as (_ & _ & Hrejected).
    + split; reflexivity.
    + intros n; reflexivity.
    + reflexivity.
    + split.
      * assert (Hok : accepted 0 84600) by (split; [reflexivity | discriminate]).
        exact (proj1 (Hdefault eq_refl Hok)).
      * apply (Hrejected 0); [reflexivity | intros [Hpos _]; discriminate].
Defined.

(** C7 as the specification words it fails: a [revalidate] of zero is a
    number, so it is the lifetime the code resolves, where the
    specification has the default. *)
Lemma zero_revalidate_is_not_defaulted :
  ¬ (∀ data : object, revalidate_of data = spec_effective_ttl data).
Proof.
  intros Hclaim. specialize (Hclaim [("revalidate", JNum 0)]).
  vm_compute in Hclaim. discriminate.
Qed.

Lemma single_flight_witness :
  let settled :=
    SingleFlight.step (SingleFlight.Settle (Throw ReconnectGaveUp))
      (SingleFlight.run (SingleFlight.Call <$> [1; 2; 3]%nat)
         (SingleFlight.idle unreachable_handler)) in
  connectCalls (SingleFlight.handler settled) = 1%nat ∧
  SingleFlight.resolved settled = [(3, false); (2, false); (1, false)]%nat.
Proof.
  destruct (single_flight 1 [2; 3]%nat unreachable_handler
              (Throw ReconnectGaveUp))
    as (_ & _ & _ & Hcalls & _ & Hresolved & _).
  - reflexivity.
  - reflexivity.
  - reflexivity.
  - split; [exact Hcalls | exact Hresolved].
Defined.

Lemma tag_index_key_is_entry_key_witness :
  store acme_cached !! (CACHE_KEY_PREFIX +:+ ("tags:" +:+ "tenant:acme")) =
    Some {| rval := RSet {[CACHE_KEY_PREFIX +:+ "page:/o/acme"]};
            deadline := Some (0 + 1000 * 84600) |} ∧
  store (set ("tags:" +:+ "tenant:acme") acme_page acme_ctx
           (connected_handler ∅ 0)).2
    !! (CACHE_KEY_PREFIX +:+ ("tags:" +:+ "tenant:acme")) =
    Some {| rval :=
              RString (Json.print (cacheEntry acme_page 0 ["tenant:acme"]));
            deadline := Some 84600000 |}.
Proof.
  destruct (tag_index_key_is_entry_key "tenant:acme") as (_ & Hindex & Hentry).
  split.
  - apply (Hindex "page:/o/acme" acme_page acme_ctx (connected_handler ∅ 0)
             (Json.print (cacheEntry acme_page 0 ["tenant:acme"]))).
    + split; reflexivity.
    + intros n; reflexivity.
    + split; [reflexivity | discriminate].
    + reflexivity.
    + apply list_elem_of_singleton. reflexivity.
    + discriminate.
    + reflexivity.
  - apply (Hentry acme_page acme_ctx (connected_handler ∅ 0)
             (Json.print (cacheEntry acme_page 0 ["tenant:acme"]))).
    + split; reflexivity.
    + intros n; reflexivity.
    + split; [reflexivity | discriminate].
    + reflexivity.
Defined.

Lemma writes_carry_expiry_witness :
  all_expiring (store acme_cached).
Proof.
  destruct (writes_carry_expiry (connected_handler ∅ 0))
    as (_ & _ & _ & Hkeeps).
  apply Hkeeps. intros k e Hk. vm_compute in Hk. discriminate.
Defined.

End Instances.

(** ** Further properties of the handler *)


Section Misses.
Context `{JsonCodec}.
Import CacheHandler.

(** [get] on a key that holds a set (the key of a tag index read as an
    entry) is a miss. *)
Lemma get_wrongtype (key : string) (st : state) (e : rentry)
    (members : gset string) :
  ready st → healthy st →
  lookup_live (now st) (store st) (CACHE_KEY_PREFIX +:+ key) = Some e →
  rval e = RSet members →
  get key st =
  (Normal None, log "Error getting cache key:" (count_command st)).
Proof.
  intros [Hc Hi] Hh Hl Hr. unfold get, try_catch.
  rewrite (bind_normal _ _ _ _ _ (ensureConnected_ready st Hc Hi)).
  cbn [negb]. unfold client_get.
  unfold bind. rewrite issue_ok by apply Hh.
  cbn [exec_command]. by rewrite Hl, Hr.
Qed.

(** Without a client (no REDIS_URL, or [createClient] threw) the methods
    only log: no connection is attempted, no command is sent, the store is
    not touched. *)
Lemma no_client_no_op (st : state) :
  redisClient st = false →
  (∀ key, get key st = (Normal None, log "Redis unavailable in get()" st)) ∧
  (∀ key data ctx,
     set key data ctx st = (Normal tt, log "Redis unavailable in set()" st)) ∧
  (∀ tags,
     revalidateTag tags st =
     (Normal tt, log "Redis unavailable in revalidateTag()" st)) ∧
  disconnect st = (Normal tt, st).
Proof.
  intros Hc.
  assert (E : ensureConnected st = (Normal false, st))
    by (unfold ensureConnected, ensureConnected_enter; by rewrite Hc).
  repeat split.
  - intros key. unfold get, try_catch. by rewrite (bind_normal _ _ _ _ _ E).
  - intros key data ctx. unfold set, try_catch.
    by rewrite (bind_normal _ _ _ _ _ E).
  - intros tags. unfold revalidateTag, try_catch.
    by rewrite (bind_normal _ _ _ _ _ E).
  - unfold disconnect. by rewrite Hc.
Qed.

(** [revalidateTag] on a tag with no live index: one read, nothing
    deleted. *)
Lemma revalidateTag_no_index (t : string) (st : state) :
  ready st → healthy st →
  lookup_live (now st) (store st) (getTagIndexKey t) = None →
  revalidateTag (OneTag t) st = (Normal tt, count_command st).
Proof.
  intros [Hc Hi] Hh Hl. unfold revalidateTag, try_catch.
  rewrite (bind_normal _ _ _ _ _ (ensureConnected_ready st Hc Hi)).
  cbn [negb as_array revalidate_each]. unfold client_sMembers.
  unfold bind. rewrite issue_ok by apply Hh.
  cbn [exec_command]. by rewrite Hl.
Qed.

(** When the handler cannot connect, [set] writes nothing. *)
Lemma set_unavailable (key : string) (data : object) (ctx : context)
    (st st1 : state) :
  ensureConnected st = (Normal false, st1) →
  set key data ctx st = (Normal tt, log "Redis unavailable in set()" st1) ∧
  store st1 = store st.
Proof.
  intros E. split.
  - unfold set, try_catch. by rewrite (bind_normal _ _ _ _ _ E).
  - destruct (ensureConnected_total st) as (b & st' & E' & Hs & _).
    rewrite E in E'. by injection E' as _ <-.
Qed.

End Misses.

Section TagsAndConnection.
Context `{JsonCodec}.
Import CacheHandler SingleFlight.

(** *** Tags *)

Lemma string_app_assoc (a b c : string) : (a +:+ b) +:+ c = a +:+ (b +:+ c).
Proof.
  induction a as [|x a IH]; [done|]. exact (f_equal (String x) IH).
Qed.

Lemma string_app_length (a b : string) :
  String.length (a +:+ b) = (String.length a + String.length b)%nat.
Proof.
  induction a as [|x a IH]; [done|]. exact (f_equal S IH).
Qed.

(** The tag of a tenant's user extends the tag of the tenant; the two tags
    [buildTags] returns differ, and so do the store keys of their indices;
    different slugs give different tenant tags, and for one slug different
    users give different user tags. *)
Lemma buildTags_distinct (userId slug : string) :
  buildTags userId slug = [buildTenantUserTag userId slug; buildTenantTag slug] ∧
  buildTenantUserTag userId slug = buildTenantTag slug +:+ ":user:" +:+ userId ∧
  buildTenantUserTag userId slug ≠ buildTenantTag slug ∧
  getTagIndexKey (buildTenantUserTag userId slug)
    ≠ getTagIndexKey (buildTenantTag slug) ∧
  (∀ slug', buildTenantTag slug = buildTenantTag slug' → slug = slug') ∧
  (∀ userId', buildTenantUserTag userId slug = buildTenantUserTag userId' slug →
              userId = userId').
Proof.
  assert (Hext : buildTenantUserTag userId slug
                 = buildTenantTag slug +:+ ":user:" +:+ userId).
  { symmetry. apply (string_app_assoc "tenant:" slug (":user:" +:+ userId)). }
  assert (Hne : buildTenantUserTag userId slug ≠ buildTenantTag slug).
  { rewrite Hext. intros E. apply (f_equal String.length) in E.
    rewrite !string_app_length in E. cbn in E. lia. }
  repeat split; try done.
  - intros E. by apply (inj _) in E.
  - intros slug' E. by apply (inj _) in E.
  - intros userId' E. unfold buildTenantUserTag in E.
    by do 3 apply (inj _) in E.
Qed.

(** *** The reconnection policy *)

(** The strategy gives up exactly when more than three retries were made;
    until then the delay is 100 ms per retry, so never more than 300 ms: the
    ceiling of 3000 ms is never reached. *)
Lemma reconnectStrategy_delays (retries : Z) :
  (reconnectStrategy retries = None ↔ 3 < retries) ∧
  (∀ delay, reconnectStrategy retries = Some delay →
            delay = retries * 100 ∧ delay ≤ 300).
Proof.
  unfold reconnectStrategy. destruct (Z.ltb_spec 3 retries); split.
  - done.
  - intros delay [=].
  - split; [done | lia].
  - intros delay [= <-]. lia.
Qed.

(** An unreachable store: [connect()] gives up after five socket attempts
    and 600 ms of waiting, and [ensureConnected] resolves to [false] with
    the promise slot cleared. *)
Lemma ensureConnected_gives_up (st : state) :
  redisClient st = true → isConnected st = false →
  connectionPromise st = false → (∀ n, unreachable st n = true) →
  ∃ st', ensureConnected st = (Normal false, st') ∧
    socketAttempts st' = (socketAttempts st + 5)%nat ∧
    connectCalls st' = S (connectCalls st) ∧
    now st' = now st + 600 ∧
    isConnected st' = false ∧ connectionPromise st' = false ∧
    redisClient st' = true ∧ store st' = store st.
Proof.
  intros Hc Hi Hp Hu. unfold ensureConnected, ensureConnected_enter.
  rewrite Hc, Hi, Hp. cbn [negb].
  cbn [connect_loop].
  repeat (cbn [unreachable elapse set_now on_error set_isConnected log
                 count_socketAttempt set_connectionPromise count_connectCall];
          rewrite Hu;
          match goal with
          | |- context [reconnectStrategy ?r] =>
              let v := eval vm_compute in (reconnectStrategy r) in
              change (reconnectStrategy r) with v
          end; cbv iota beta).
  eexists. split; [reflexivity|]. cbn. repeat split; try done; lia.
Qed.

(** A reachable store: one call of [connect()], one socket attempt, and
    from then on [ensureConnected] answers at once without touching
    anything. *)
Lemma ensureConnected_connects (st : state) :
  redisClient st = true → isConnected st = false →
  connectionPromise st = false → unreachable st (socketAttempts st) = false →
  ∃ st', ensureConnected st = (Normal true, st') ∧
    isConnected st' = true ∧ connectionPromise st' = false ∧
    connectCalls st' = S (connectCalls st) ∧
    socketAttempts st' = S (socketAttempts st) ∧
    now st' = now st ∧ store st' = store st ∧
    ensureConnected st' = (Normal true, st').
Proof.
  intros Hc Hi Hp Hu. unfold ensureConnected at 1, ensureConnected_enter.
  rewrite Hc, Hi, Hp. cbn [negb connect_loop].
  cbn [unreachable set_connectionPromise count_connectCall socketAttempts].
  rewrite Hu. cbn [ensureConnected_settle].
  eexists. split; [reflexivity|]. cbn. repeat split; try done.
  by apply ensureConnected_ready.
Qed.

(** *** Single flight with socket events in between *)

Lemma step_pending (ev : event) (s : sched) :
  pending ev = true →
  redisClient (handler s) = true → connectionPromise (handler s) = true →
  redisClient (handler (step ev s)) = true ∧
  connectionPromise (handler (step ev s)) = true ∧
  connectCalls (handler (step ev s)) = connectCalls (handler s).
Proof.
  intros Hev Hc Hp. destruct ev as [c| | | |r]; try done.
  unfold step, ensureConnected_enter. rewrite Hc, Hp. cbn [negb].
  by destruct (isConnected (handler s)).
Qed.

(** Once an attempt is in flight, no call of [ensureConnected] and no
    event of the client starts another one until it settles. *)
Lemma single_flight_interleaved (c : nat) (evs : list event) (st : state) :
  redisClient st = true → isConnected st = false →
  connectionPromise st = false →
  forallb pending evs = true →
  connectCalls (handler (run (Call c :: evs) (idle st))) = S (connectCalls st).
Proof.
  intros Hc Hi Hp Hevs. rewrite run_cons, step_call_start by done.
  set (s := {| handler := _ |}).
  assert (Hs : redisClient (handler s) = true ∧
               connectionPromise (handler s) = true ∧
               connectCalls (handler s) = S (connectCalls st)) by done.
  clearbody s. revert s Hs.
  induction evs as [|ev evs IH]; intros s (Hsc & Hsp & Hsn); [done|].
  cbn [forallb] in Hevs. apply andb_true_iff in Hevs as [Hev Hevs].
  rewrite run_cons. apply IH; [done|].
  destruct (step_pending ev s Hev Hsc Hsp) as (? & ? & Hn).
  repeat split; try done. by rewrite Hn.
Qed.

End TagsAndConnection.

Section AcrossCalls.
Context `{JsonCodec}.
Import CacheHandler.

(** *** Misses *)

(** A key that was never written, or whose expiry has passed, is a miss:
    one GET is sent and nothing else changes. *)
Lemma get_unwritten_or_expired (key : string) (st : state) :
  ready st → healthy st →
  store st !! (CACHE_KEY_PREFIX +:+ key) = None ∨
  (∃ e d, store st !! (CACHE_KEY_PREFIX +:+ key) = Some e ∧
          deadline e = Some d ∧ d ≤ now st) →
  get key st = (Normal None, count_command st).
Proof.
  intros [Hc Hi] Hh Hk.
  assert (Hl : lookup_live (now st) (store st) (CACHE_KEY_PREFIX +:+ key) = None).
  { unfold lookup_live, live.
    destruct Hk as [->|(e & d & -> & -> & Hd)]; [done|].
    by destruct (Z.ltb_spec (now st) d); [lia|]. }
  unfold get, try_catch.
  rewrite (bind_normal _ _ _ _ _ (ensureConnected_ready st Hc Hi)).
  cbn [negb]. unfold client_get, bind. rewrite issue_ok by apply Hh.
  cbn [exec_command]. by rewrite Hl.
Qed.

(** What [get] returns for a live string: the parsed text, and a miss when
    the text is empty or does not parse. *)
Lemma get_returns_parsed_text (key : string) (st : state) (e : rentry)
    (text : string) :
  ready st → healthy st →
  lookup_live (now st) (store st) (CACHE_KEY_PREFIX +:+ key) = Some e →
  rval e = RString text →
  (get key st).1 =
  Normal (if String.eqb text EmptyString then None
          else match JSON_parse text with
               | Normal v => Some v
               | Throw _ => None
               end).
Proof.
  intros Hr Hh Hl Hv. destruct (String.eqb_spec text EmptyString) as [->|Hne].
  - destruct Hr as [Hc Hi]. unfold get, try_catch.
    rewrite (bind_normal _ _ _ _ _ (ensureConnected_ready st Hc Hi)).
    cbn [negb]. unfold client_get, bind. rewrite issue_ok by apply Hh.
    cbn [exec_command]. by rewrite Hl, Hv.
  - by eapply get_present.
Qed.

(** *** The payload [set] stores *)

Lemma obj_set_twice (o : object) (k : string) (v : json) :
  obj_set (obj_set o k v) k v = obj_set o k v.
Proof.
  induction o as [|[k' v'] rest IH]; simpl.
  - by rewrite String.eqb_refl.
  - destruct (String.eqb k' k) eqn:E; simpl; rewrite E; [done|by rewrite IH].
Qed.

(** [fixedData] sets [revalidate] to the resolved lifetime and leaves every
    other property as it is; doing it twice changes nothing more. *)
Lemma fixedData_normalizes (data : object) :
  obj_get (fixedData data) "revalidate" = Some (JNum (revalidate_of data)) ∧
  (∀ k, k ≠ "revalidate" → obj_get (fixedData data) k = obj_get data k) ∧
  revalidate_of (fixedData data) = revalidate_of data ∧
  fixedData (fixedData data) = fixedData data.
Proof.
  assert (Hg : obj_get (fixedData data) "revalidate"
               = Some (JNum (revalidate_of data))) by apply obj_get_set.
  assert (Hr : revalidate_of (fixedData data) = revalidate_of data).
  { unfold revalidate_of at 1. by rewrite Hg. }
  repeat split; try done.
  - intros k Hk. by apply obj_get_set_ne.
  - unfold fixedData at 1. rewrite Hr. apply obj_set_twice.
Qed.

(** *** The index across calls *)

(** A [set] that goes through keeps the members a live index already had
    and adds the key of the entry. *)
Lemma set_grows_index (key : string) (data : object) (ctx : context)
    (st : state) (text t : string) (e : rentry) (members : gset string) :
  ready st → healthy st →
  accepted (now st) (revalidate_of data) →
  JSON_stringify (cacheEntry data (now st) (as_array (ctx_tags ctx)))
    = Normal text →
  t ∈ as_array (ctx_tags ctx) →
  getTagIndexKey t ≠ CACHE_KEY_PREFIX +:+ key →
  lookup_live (now st) (store st) (getTagIndexKey t) = Some e →
  rval e = RSet members →
  store (set key data ctx st).2 !! getTagIndexKey t =
  Some {| rval := RSet ({[CACHE_KEY_PREFIX +:+ key]} ∪ members);
          deadline := Some (now st + 1000 * revalidate_of data) |}.
Proof.
  intros Hr Hh Hpos Htext Ht Hne Hl Hv.
  rewrite (set_index_lookup key data ctx st text t) by done.
  rewrite lookup_live_ne by done. unfold indexed. by rewrite Hl, Hv.
Qed.

(** [set] then [revalidateTag] with nothing in between: when the store
    key of the index of [t] is not the key of the entry and holds no
    string, a [set] tagged with [t] that goes through, followed at once by
    [revalidateTag(t)], leaves no index for [t], and [get] on the key is a
    miss. *)
Lemma set_then_revalidateTag (key : string) (data : object) (ctx : context)
    (st : state) (text t : string) :
  ready st → healthy st →
  accepted (now st) (revalidate_of data) →
  JSON_stringify (cacheEntry data (now st) (as_array (ctx_tags ctx)))
    = Normal text →
  t ∈ as_array (ctx_tags ctx) →
  getTagIndexKey t ≠ CACHE_KEY_PREFIX +:+ key →
  (∀ e v, lookup_live (now st) (store st) (getTagIndexKey t) = Some e →
          rval e ≠ RString v) →
  let st1 := (set key data ctx st).2 in
  let st2 := (revalidateTag (OneTag t) st1).2 in
  store st2 !! getTagIndexKey t = None ∧
  store st2 !! (CACHE_KEY_PREFIX +:+ key) = None ∧
  (get key st2).1 = Normal None.
Proof.
  intros Hr Hh Hok Htext Ht Hne Hset st1 st2.
  pose proof (set_index_lookup key data ctx st text t Hr Hh Hok Htext Ht) as Hi.
  destruct (set_ready key data ctx st text) as (s1 & E & _ & En & Hr1 & Hh1);
    try done.
  subst st2 st1. rewrite E in *. cbn [snd] in *.
  rewrite lookup_live_ne in Hi by done.
  assert (Hm : ∃ members,
             indexed (CACHE_KEY_PREFIX +:+ key)
               (lookup_live (now st) (store st) (getTagIndexKey t))
             = RSet members ∧ CACHE_KEY_PREFIX +:+ key ∈ members).
  { unfold indexed.
    destruct (lookup_live (now st) (store st) (getTagIndexKey t)) as [e|] eqn:El.
    - destruct (rval e) as [v|m] eqn:Ev; [by destruct (Hset e v)|].
      eexists; split; [done | set_solver].
    - eexists; split; [done | set_solver]. }
  destruct Hm as (members & Hv & Hin).
  destruct (revalidate_one t s1
              {| rval := RSet members;
                 deadline := Some (now st + 1000 * revalidate_of data) |}
              members) as (s2 & E2 & Hk & Hn2 & Hr2 & Hh2); try done.
  { unfold lookup_live. rewrite Hi, Hv, En. by rewrite live_stamp. }
  { set_solver. }
  rewrite E2. cbn [snd].
  assert (Hpk : store s2 !! (CACHE_KEY_PREFIX +:+ key) = None).
  { rewrite Hk, decide_True; [done|].
    apply elem_of_app. left. by apply elem_of_elements. }
  repeat split; try done.
  - rewrite Hk, decide_True; [done|]. apply elem_of_app. right. by left.
  - apply get_absent; try done. unfold lookup_live. by rewrite Hpk.
Qed.

(** A key tagged with two tags: revalidating the first deletes the entry
    and leaves the second index as it was, still naming the deleted key;
    revalidating the second then goes through, deletes that index, and the
    key stays a miss. *)
Lemma revalidateTag_tolerates_stale_member (t1 t2 key : string) (st : state)
    (e1 e2 : rentry) (m1 m2 : gset string) :
  ready st → healthy st →
  lookup_live (now st) (store st) (getTagIndexKey t1) = Some e1 →
  rval e1 = RSet m1 →
  lookup_live (now st) (store st) (getTagIndexKey t2) = Some e2 →
  rval e2 = RSet m2 →
  CACHE_KEY_PREFIX +:+ key ∈ m1 → CACHE_KEY_PREFIX +:+ key ∈ m2 →
  t1 ≠ t2 → getTagIndexKey t2 ∉ m1 →
  let st1 := (revalidateTag (OneTag t1) st).2 in
  let st2 := (revalidateTag (OneTag t2) st1).2 in
  store st1 !! (CACHE_KEY_PREFIX +:+ key) = None ∧
  lookup_live (now st1) (store st1) (getTagIndexKey t2) = Some e2 ∧
  (revalidateTag (OneTag t2) st1).1 = Normal tt ∧
  store st2 !! getTagIndexKey t2 = None ∧
  (get key st2).1 = Normal None.
Proof.
  intros Hr Hh Hl1 Hv1 Hl2 Hv2 Hin1 Hin2 Hne Hnotin st1 st2.
  assert (Hm1 : m1 ≠ ∅) by set_solver.
  assert (Hm2 : m2 ≠ ∅) by set_solver.
  destruct (revalidate_one t1 st e1 m1) as (s1 & E1 & Hk1 & Hn1 & Hr1 & Hh1);
    try done.
  assert (Hl2' : lookup_live (now s1) (store s1) (getTagIndexKey t2) = Some e2).
  { unfold lookup_live in *. rewrite Hk1, Hn1, decide_False; [done|].
    intros [Hin|Hin%list_elem_of_singleton]%elem_of_app.
    - by apply elem_of_elements in Hin.
    - by apply (inj _) in Hin. }
  destruct (revalidate_one t2 s1 e2 m2) as (s2 & E2 & Hk2 & Hn2 & Hr2 & Hh2);
    try done.
  subst st2 st1. rewrite E1. cbn [snd]. rewrite E2. cbn [fst snd].
  repeat split; try done.
  - rewrite Hk1, decide_True; [done|].
    apply elem_of_app. left. by apply elem_of_elements.
  - rewrite Hk2, decide_True; [done|]. apply elem_of_app. right. by left.
  - apply get_absent; try done. unfold lookup_live.
    rewrite Hk2, decide_True; [done|].
    apply elem_of_app. left. by apply elem_of_elements.
Qed.

(** *** No client *)

(** Without a client (REDIS_URL unset, or [createClient] threw) the cache
    is off for good: whatever the host calls, no connection is attempted,
    no command is sent, the store is not touched, and [get] misses. *)
Lemma disabled_without_client (cs : list call) (st : state) :
  redisClient st = false →
  let st' := run_calls cs st in
  redisClient st' = false ∧ store st' = store st ∧
  connectCalls st' = connectCalls st ∧
  socketAttempts st' = socketAttempts st ∧
  commandsIssued st' = commandsIssued st ∧
  ∀ key, (get key st').1 = Normal None.
Proof.
  revert st. induction cs as [|c cs IH]; intros st Hc.
  - cbn. repeat split; try done. intros key.
    destruct (no_client_no_op st Hc) as (Hget & _). by rewrite Hget.
  - change (run_calls (c :: cs) st) with (run_calls cs (run_call c st)).
    destruct (no_client_no_op st Hc) as (Hget & Hset & Hrev & _).
    assert (Hstep : redisClient (run_call c st) = false ∧
                    store (run_call c st) = store st ∧
                    connectCalls (run_call c st) = connectCalls st ∧
                    socketAttempts (run_call c st) = socketAttempts st ∧
                    commandsIssued (run_call c st) = commandsIssued st).
    { destruct c as [key|key data ctx|tags|ms]; cbn [run_call];
        rewrite ?Hget, ?Hset, ?Hrev; by repeat split. }
    destruct Hstep as (Hc' & Hs & Hcc & Hsa & Hci).
    destruct (IH (run_call c st) Hc') as (H1 & H2 & H3 & H4 & H5 & H6).
    cbv zeta in *. rewrite H2, H3, H4, H5, Hs, Hcc, Hsa, Hci.
    by repeat split.
Qed.

(** *** Shutdown *)

(** [disconnect] resolves whatever happens and leaves the store alone.  On
    a connected handler it sends QUIT; the flag is lowered when QUIT went
    through, and stays up, with a warning, when it failed.  Without a
    connection it does nothing. *)
Lemma disconnect_outcomes (st : state) :
  (redisClient st && isConnected st = false → disconnect st = (Normal tt, st)) ∧
  (ready st → fails st (commandsIssued st) = false →
   disconnect st = (Normal tt, set_isConnected false (count_command st))) ∧
  (ready st → fails st (commandsIssued st) = true →
   disconnect st =
   (Normal tt, log "Error disconnecting from Redis:" (count_command st))).
Proof.
  unfold disconnect, try_catch, bind, client_quit. repeat split.
  - by intros ->.
  - intros [-> ->] ->. done.
  - intros [-> ->] ->. done.
Qed.

End AcrossCalls.

Section FurtherInstances.
Import CacheHandler SingleFlight.
Existing Instance Json.codec.

Lemma get_unwritten_or_expired_witness :
  get "page:/o/none" (connected_handler ∅ 0) =
  (Normal None, count_command (connected_handler ∅ 0)).
Proof.
  apply get_unwritten_or_expired.
  - split; reflexivity.
  - intros n; reflexivity.
  - left. reflexivity.
Defined.

Lemma get_returns_parsed_text_witness :
  (get "k" garbled).1 = Normal None.
Proof.
  etrans.
  - apply (get_returns_parsed_text "k" garbled
             {| rval := RString "<html>"; deadline := None |} "<html>").
    + split; reflexivity.
    + intros n; reflexivity.
    + vm_compute. reflexivity.
    + reflexivity.
  - vm_compute. reflexivity.
Defined.

Lemma get_wrongtype_witness :
  get "tags:tenant:acme" acme_cached =
  (Normal None, log "Error getting cache key:" (count_command acme_cached)).
Proof.
  apply (get_wrongtype "tags:tenant:acme" acme_cached
           {| rval := RSet {["basechat:page:/o/acme"]};
              deadline := Some 84600000 |}
           {["basechat:page:/o/acme"]}).
  - split; reflexivity.
  - intros n; reflexivity.
  - vm_compute. reflexivity.
  - reflexivity.
Defined.

Lemma revalidateTag_no_index_witness :
  revalidateTag (OneTag "tenant:none") acme_cached =
  (Normal tt, count_command acme_cached).
Proof.
  apply revalidateTag_no_index.
  - split; reflexivity.
  - intros n; reflexivity.
  - vm_compute. reflexivity.
Defined.

Lemma revalidateTag_tolerates_stale_member_witness :
  (get "k1"
     (revalidateTag (OneTag "t2")
        (revalidateTag (OneTag "t1") two_tag_cached).2).2).1 = Normal None.
Proof.
  destruct (revalidateTag_tolerates_stale_member "t1" "t2" "k1" two_tag_cached
              {| rval := RSet {["basechat:k1"]}; deadline := Some 84600000 |}
              {| rval := RSet {["basechat:k1"]}; deadline := Some 84600000 |}
              {["basechat:k1"]} {["basechat:k1"]})
    as (_ & _ & _ & _ & Hget).
  - split; reflexivity.
  - intros n; reflexivity.
  - vm_compute. reflexivity.
  - reflexivity.
  - vm_compute. reflexivity.
  - reflexivity.
  - apply elem_of_singleton. reflexivity.
  - apply elem_of_singleton. reflexivity.
  - discriminate.
  - intros Hin. apply elem_of_singleton in Hin. discriminate.
  - exact Hget.
Defined.

Lemma disabled_without_client_witness :
  connectCalls
    (run_calls [CallSet "k" acme_page acme_ctx; CallGet "k";
                CallRevalidateTag (OneTag "tenant:acme")]
       unconfigured_handler) = 0%nat.
Proof.
  destruct (disabled_without_client
              [CallSet "k" acme_page acme_ctx; CallGet "k";
               CallRevalidateTag (OneTag "tenant:acme")]
              unconfigured_handler) as (_ & _ & Hcalls & _).
  - reflexivity.
  - exact Hcalls.
Defined.

Lemma reconnectStrategy_delays_witness :
  300 = 3 * 100 ∧ 300 ≤ 300.
Proof.
  apply (proj2 (reconnectStrategy_delays 3) 300). reflexivity.
Defined.

Lemma ensureConnected_gives_up_witness :
  ∃ st', ensureConnected unreachable_handler = (Normal false, st') ∧
         socketAttempts st' = 5%nat ∧ now st' = 600.
Proof.
  destruct (ensureConnected_gives_up unreachable_handler)
    as (st' & E & Hs & _ & Hn & _).
  - reflexivity.
  - reflexivity.
  - reflexivity.
  - intros n; reflexivity.
  - exists st'. repeat split; assumption.
Defined.

Lemma ensureConnected_reattempts_witness :
  connectCalls (ensureConnected (ensureConnected unreachable_handler).2).2
  = S (connectCalls (ensureConnected unreachable_handler).2).
Proof.
  apply ensureConnected_reattempts; reflexivity.
Defined.

Lemma ensureConnected_connects_witness :
  ∃ st', ensureConnected fresh_handler = (Normal true, st') ∧
         connectCalls st' = 1%nat ∧
         ensureConnected st' = (Normal true, st').
Proof.
  destruct (ensureConnected_connects fresh_handler)
    as (st' & E & _ & _ & Hc & _ & _ & _ & Hagain).
  - reflexivity.
  - reflexivity.
  - reflexivity.
  - reflexivity.
  - exists st'. repeat split; assumption.
Defined.

Lemma single_flight_interleaved_witness :
  connectCalls
    (handler (run [Call 1; SocketError; Call 2; SocketConnect; Call 3;
                   SocketDisconnect; Call 4]%nat (idle fresh_handler)))
  = 1%nat.
Proof.
  apply (single_flight_interleaved 1
           [SocketError; Call 2; SocketConnect; Call 3; SocketDisconnect;
            Call 4]%nat fresh_handler); reflexivity.
Defined.

Lemma buildTags_distinct_witness :
  buildTags "u1" "acme" = ["tenant:acme:user:u1"; "tenant:acme"] ∧
  "acme" = "acme".
Proof.
  destruct (buildTags_distinct "u1" "acme") as (Htags & _ & _ & _ & Hinj & _).
  split; [exact Htags | apply Hinj; reflexivity].
Defined.

Lemma set_unavailable_witness :
  set "k" acme_page acme_ctx unreachable_handler =
  (Normal tt,
   log "Redis unavailable in set()" (ensureConnected unreachable_handler).2).
Proof.
  apply (set_unavailable "k" acme_page acme_ctx unreachable_handler).
  vm_compute. reflexivity.
Defined.

Lemma fixedData_normalizes_witness :
  obj_get (fixedData acme_page) "value" = obj_get acme_page "value".
Proof.
  apply (proj1 (proj2 (fixedData_normalizes acme_page))). discriminate.
Defined.

Lemma set_grows_index_witness :
  store (set "page:/o/acme/faq" minute_page acme_ctx acme_cached).2
    !! getTagIndexKey "tenant:acme" =
  Some {| rval := RSet ({["basechat:page:/o/acme/faq"]}
                          ∪ {["basechat:page:/o/acme"]});
          deadline := Some 60000 |}.
Proof.
  apply (set_grows_index "page:/o/acme/faq" minute_page acme_ctx acme_cached
           (Json.print (cacheEntry minute_page 0 ["tenant:acme"]))
           "tenant:acme"
           {| rval := RSet {["basechat:page:/o/acme"]};
              deadline := Some 84600000 |}).
  - split; reflexivity.
  - intros n; reflexivity.
  - split; [reflexivity | discriminate].
  - reflexivity.
  - apply list_elem_of_singleton. reflexivity.
  - discriminate.
  - vm_compute. reflexivity.
  - reflexivity.
Defined.

Lemma set_then_revalidateTag_witness :
  (get "page:/o/acme"
     (revalidateTag (OneTag "tenant:acme") acme_cached).2).1 = Normal None.
Proof.
  destruct (set_then_revalidateTag "page:/o/acme" acme_page acme_ctx
              (connected_handler ∅ 0)
              (Json.print (cacheEntry acme_page 0 ["tenant:acme"]))
              "tenant:acme") as (_ & _ & Hget).
  - split; reflexivity.
  - intros n; reflexivity.
  - split; [reflexivity | discriminate].
  - reflexivity.
  - apply list_elem_of_singleton. reflexivity.
  - discriminate.
  - intros e v Hl. vm_compute in Hl. discriminate.
  - exact Hget.
Defined.

Lemma disconnect_outcomes_witness :
  isConnected (disconnect acme_cached).2 = false.
Proof.
  destruct (disconnect_outcomes acme_cached) as (_ & Hquit & _).
  rewrite Hquit; [reflexivity | split; reflexivity | reflexivity].
Defined.

End FurtherInstances.
